(** * ytsum: YouTube transcript summariser -- a shallow embedding of [ytsum.py]

    The script parses a video URL, fetches a caption track (with a language
    fall-back), has a generative model translate it and write notes, and saves
    the result to text files.  The embedding below follows the five functions
    of the script:

    - [extract_video_id]       two regular expressions tried in order;
    - [get_transcript]         English fetch, then the two scans over the
                               enumerated tracks, then the optional translation;
    - [generate_notes_with_gemini];
    - [save_to_file]           the split on the summary marker;
    - [process_youtube_video]  the orchestrator.

    Python strings are sequences of Unicode code points, so a string is a list
    of code points ([N]).  The external collaborators (caption service,
    generative model, file system) are a record of functions, [World]; every
    call to one of them is recorded as an [Event], and a computation is a pair
    of an outcome (a value or a raised exception) and the events it produced. *)

From Stdlib Require Import Ascii String List NArith Arith Bool Lia.
Import ListNotations.

(** ** Strings *)

Definition char := N.
Definition str := list char.

Definition ch (a : ascii) : char := N_of_ascii a.
Arguments ch a%_char.

(** [lit "abc"] is the Python literal ['abc'] (ASCII only). *)
Definition lit (s : string) : str := List.map ch (list_ascii_of_string s).
Arguments lit s%_string.

(** [a == b] *)
Fixpoint str_eqb (a b : str) : bool :=
  match a, b with
  | [], [] => true
  | x :: a', y :: b' => N.eqb x y && str_eqb a' b'
  | _, _ => false
  end.

(** [s.startswith(p)] *)
Fixpoint starts_with (p s : str) : bool :=
  match p, s with
  | [], _ => true
  | _ :: _, [] => false
  | a :: p', b :: s' => N.eqb a b && starts_with p' s'
  end.

(** ** Regular expressions, as [re.search] runs them

    Only the constructs of the two patterns of [extract_video_id] occur:
    literal characters, [.], a bracketed set, concatenation, alternation
    (the non-capturing [(?:..|..)]), a counted repetition [{n}] of a single
    character matcher, the lazy star [*?] of one, and a capturing group. *)

Inductive item :=
| One (c : char)
| Range (lo hi : char).

Inductive atom :=
| Chr (c : char)
| Dot
| Set_ (items : list item).

Definition item_ok (c : char) (i : item) : bool :=
  match i with
  | One x => N.eqb c x
  | Range lo hi => N.leb lo c && N.leb c hi
  end.

Definition newline : char := 10%N.

(** [.] matches any character but a newline (no DOTALL flag is given). *)
Definition atom_ok (a : atom) (c : char) : bool :=
  match a with
  | Chr x => N.eqb c x
  | Dot => negb (N.eqb c newline)
  | Set_ items => existsb (item_ok c) items
  end.

Inductive regex :=
| Eps
| Atom (a : atom)
| Cat (r1 r2 : regex)
| Alt (r1 r2 : regex)
| Rep (n : nat) (a : atom)
| LazyStar (a : atom)
| Group (i : nat) (r : regex).

(** Captured groups, most recent first. *)
Definition caps := list (nat * str).

Fixpoint group (i : nat) (g : caps) : option str :=
  match g with
  | [] => None
  | (j, s) :: g' => if Nat.eqb i j then Some s else group i g'
  end.

Section Backtracking.
Variable R : Type.

(** [a{n}] followed by the continuation [k]. *)
Fixpoint rep (a : atom) (n : nat) (s : str) (k : str -> option R) : option R :=
  match n with
  | 0 => k s
  | S n' =>
      match s with
      | c :: s' => if atom_ok a c then rep a n' s' k else None
      | [] => None
      end
  end.

(** [a*?] followed by [k]: the continuation is tried first, and one more
    character is consumed only when it fails. *)
Fixpoint lazy_star (a : atom) (s : str) (k : str -> option R) : option R :=
  match k s with
  | Some x => Some x
  | None =>
      match s with
      | c :: s' => if atom_ok a c then lazy_star a s' k else None
      | [] => None
      end
  end.

(** The backtracking matcher, anchored at the head of [s].  [k] receives
    the unread rest of the input and the groups captured so far. *)
Fixpoint exec (r : regex) (s : str) (g : caps)
         (k : str -> caps -> option R) : option R :=
  match r with
  | Eps => k s g
  | Atom a =>
      match s with
      | c :: s' => if atom_ok a c then k s' g else None
      | [] => None
      end
  | Cat r1 r2 => exec r1 s g (fun s' g' => exec r2 s' g' k)
  | Alt r1 r2 =>
      match exec r1 s g k with
      | Some x => Some x
      | None => exec r2 s g k
      end
  | Rep n a => rep a n s (fun s' => k s' g)
  | LazyStar a => lazy_star a s (fun s' => k s' g)
  | Group i r1 =>
      exec r1 s g
        (fun s' g' => k s' ((i, firstn (length s - length s') s) :: g'))
  end.
End Backtracking.
Arguments rep {R} a n s k.
Arguments lazy_star {R} a s k.
Arguments exec {R} r s g k.

(** One attempt of the pattern at the head of [s]. *)
Definition match_here (r : regex) (s : str) : option caps :=
  exec r s [] (fun _ g => Some g).

(** [re.search(r, s)]: the first start position, from the left, at which the
    pattern matches; the end of the string is a start position too. *)
Fixpoint search (r : regex) (s : str) : option caps :=
  match match_here r s with
  | Some g => Some g
  | None =>
      match s with
      | [] => None
      | _ :: s' => search r s'
      end
  end.

(** A literal piece of a pattern. *)
Fixpoint text (l : str) : regex :=
  match l with
  | [] => Eps
  | c :: l' => Cat (Atom (Chr c)) (text l')
  end.

(** ** [extract_video_id] *)

(** [[a-zA-Z0-9_-]] *)
Definition id_set : atom :=
  Set_ [Range (ch "a") (ch "z"); Range (ch "A") (ch "Z");
        Range (ch "0") (ch "9"); One (ch "_"); One (ch "-")].

Definition watch_v : str := lit "youtube.com/watch?v=".
Definition youtu_be : str := lit "youtu.be/".
Definition embed : str := lit "youtube.com/embed/".
Definition watch_q : str := lit "youtube.com/watch?".
Definition amp_v : str := lit "&v=".

(** [(?:youtube\.com\/watch\?v=|youtu\.be\/|youtube\.com\/embed\/)([a-zA-Z0-9_-]{11})] *)
Definition pattern_a : regex :=
  Cat (Alt (text watch_v) (Alt (text youtu_be) (text embed)))
      (Group 1 (Rep 11 id_set)).

(** [youtube\.com\/watch\?.*?&v=([a-zA-Z0-9_-]{11})] *)
Definition pattern_b : regex :=
  Cat (text watch_q)
      (Cat (LazyStar Dot) (Cat (text amp_v) (Group 1 (Rep 11 id_set)))).

Definition patterns : list regex := [pattern_a; pattern_b].

(** The [for pattern in patterns] loop: the first pattern that matches
    decides, and [None] is returned when none does. *)
Fixpoint first_match (ps : list regex) (url : str) : option str :=
  match ps with
  | [] => None
  | p :: ps' =>
      match search p url with
      | Some g => group 1 g
      | None => first_match ps' url
      end
  end.

Definition extract_video_id (url : str) : option str :=
  first_match patterns url.

(** ** String methods used by the script *)

(** [str.isspace] on one character: the code points CPython treats as
    whitespace, which are the ones [str.strip()] removes. *)
Definition isspace (c : char) : bool :=
  (N.leb 9 c && N.leb c 13) || (N.leb 28 c && N.leb c 32)
  || N.eqb c 133 || N.eqb c 160 || N.eqb c 5760
  || (N.leb 8192 c && N.leb c 8202)
  || N.eqb c 8232 || N.eqb c 8233 || N.eqb c 8239 || N.eqb c 8287
  || N.eqb c 12288.

Fixpoint lstrip (s : str) : str :=
  match s with
  | c :: s' => if isspace c then lstrip s' else s
  | [] => []
  end.

Definition rstrip (s : str) : str := rev (lstrip (rev s)).

(** [s.strip()] *)
Definition strip (s : str) : str := rstrip (lstrip s).

(** The first occurrence of [sep] in [s], scanning from the left: the text
    before it and the text after it. *)
Fixpoint find (sep s : str) : option (str * str) :=
  if starts_with sep s then Some ([], skipn (length sep) s)
  else
    match s with
    | [] => None
    | c :: s' =>
        match find sep s' with
        | Some (a, b) => Some (c :: a, b)
        | None => None
        end
    end.

(** Cutting at successive occurrences; [fuel] bounds the number of cuts and
    is the length of the text, which a non-empty separator cannot exceed. *)
Fixpoint split_aux (fuel : nat) (sep s : str) : list str :=
  match fuel with
  | 0 => [s]
  | S fuel' =>
      match find sep s with
      | Some (a, b) => a :: split_aux fuel' sep b
      | None => [s]
      end
  end.

Fixpoint replace_aux (fuel : nat) (old new s : str) : str :=
  match fuel with
  | 0 => s
  | S fuel' =>
      match find old s with
      | Some (a, b) => a ++ new ++ replace_aux fuel' old new b
      | None => s
      end
  end.

(** [s.replace(old, new)]; with an empty [old], Python puts [new] before
    every character and at the end. *)
Definition replace (s old new : str) : str :=
  match old with
  | [] => new ++ flat_map (fun c => c :: new) s
  | _ :: _ => replace_aux (length s) old new s
  end.

(** [sep.join(parts)] *)
Fixpoint str_join (sep : str) (parts : list str) : str :=
  match parts with
  | [] => []
  | [p] => p
  | p :: parts' => p ++ sep ++ str_join sep parts'
  end.

(** ** Outcomes, events and computations *)

(** The exceptions of class [Exception], which are the ones the handlers of
    the script ([except Exception]) are written for.  What is not an
    [Exception] ([KeyboardInterrupt], [SystemExit]) is outside this
    development: no collaborator is taken to raise it. *)
Inductive exn :=
| UnboundLocalError (name : str)
| ValueError (msg : str)
| External (msg : str).

(** [str(e)], as the f-strings of the handlers print it. *)
Definition str_of_exn (e : exn) : str :=
  match e with
  | UnboundLocalError name =>
      lit "cannot access local variable '" ++ name
      ++ lit "' where it is not associated with a value"
  | ValueError msg => msg
  | External msg => msg
  end.

Inductive result (A : Type) :=
| Ok (a : A)
| Raise (e : exn).
Arguments Ok {A} a.
Arguments Raise {A} e.

(** [s.split(sep)]: an empty separator is refused. *)
Definition str_split (s sep : str) : result (list str) :=
  match sep with
  | [] => Raise (ValueError (lit "empty separator"))
  | _ :: _ => Ok (split_aux (length s) sep s)
  end.

(** What [fetch] and [get_transcript] of the caption service hand back: the
    text of each caption snippet. *)
Definition Fetched := list str.

(** A caption track as the service enumerates it. *)
Record Track := {
  language_code : str;
  is_generated : bool;
  fetch : result Fetched
}.

(** The external collaborators.  Within one run no call is repeated with the
    same arguments, so each answer is a function of the arguments. *)
Record World := {
  (** [YouTubeTranscriptApi.get_transcript(video_id, languages=['en'])] *)
  api_get_transcript : str -> result Fetched;
  (** [YouTubeTranscriptApi.list_transcripts(video_id)], in iteration order *)
  api_list_transcripts : str -> result (list Track);
  (** [TextFormatter().format_transcript]; it raises on data it cannot
      handle (a snippet without its text, for one) *)
  format_transcript : Fetched -> result str;
  (** [model.generate_content(prompt).text] *)
  generate_content : str -> result str;
  (** [with open(name, "w", encoding="utf-8") as f: f.write(content)] *)
  open_write : str -> str -> result unit
}.

Inductive Event :=
| GetTranscript (video_id : str)
| ListTranscripts (video_id : str)
| Fetch (t : Track)
| Translate (prompt : str)
| GenerateNotes (prompt : str)
| PrintLine (line : str)
| WriteFile (name content : str)
| WriteFailed (name content : str).

(** A computation: its outcome and the events it produced, oldest first. *)
Definition M (A : Type) : Type := result A * list Event.

Definition ret {A} (a : A) : M A := (Ok a, []).

Definition raise {A} (e : exn) : M A := (Raise e, []).

Definition bind {A B} (m : M A) (f : A -> M B) : M B :=
  match m with
  | (Ok a, t) => let (r, t') := f a in (r, t ++ t')
  | (Raise e, t) => (Raise e, t)
  end.

(** [try: m except Exception as e: h e] *)
Definition try_except {A} (m : M A) (h : exn -> M A) : M A :=
  match m with
  | (Ok a, t) => (Ok a, t)
  | (Raise e, t) => let (r, t') := h e in (r, t ++ t')
  end.

Definition emit (ev : Event) : M unit := (Ok tt, [ev]).

(** A call to a collaborator: the event, and the collaborator's answer. *)
Definition call {A} (ev : Event) (answer : result A) : M A := (answer, [ev]).

Definition lift {A} (r : result A) : M A := (r, []).

Declare Scope m_scope.
Delimit Scope m_scope with M.
Notation "x <- m ;; k" := (bind m (fun x => k))
  (at level 61, m at next level, right associativity) : m_scope.
Notation "' pat <- m ;; k" :=
  (bind m (fun x => match x with pat => k end))
  (at level 61, pat pattern, m at next level, right associativity) : m_scope.
Notation "m ;; k" := (bind m (fun _ => k))
  (at level 61, right associativity) : m_scope.
Notation "'try' m 'except' h" := (try_except m h)
  (at level 62, m at level 61) : m_scope.
Open Scope m_scope.

(** [print(line)]; the standard output is taken to accept every line. *)
Definition print (line : str) : M unit := emit (PrintLine line).

(** [with open(name, "w", encoding="utf-8") as f: f.write(content)] *)
Definition write_file (w : World) (name content : str) : M unit :=
  match open_write w name content with
  | Ok _ => emit (WriteFile name content)
  | Raise e => (Raise e, [WriteFailed name content])
  end.

(** ** Literals of the script *)

Definition nl : str := [newline].
Definition sp (n : nat) : str := repeat 32%N n.

Definition en : str := lit "en".
Definition SUMMARY : str := lit "SUMMARY:".
Definition NOTES : str := lit "NOTES:".

Definition globe : str := [127760%N].       (* U+1F310 *)
Definition camera : str := [127909%N].      (* U+1F3A5 *)
Definition memo : str := [128221%N].        (* U+1F4DD *)
Definition check_mark : str := [9989%N].    (* U+2705 *)
Definition cross_mark : str := [10060%N].   (* U+274C *)

(** An f-string field: [None] is rendered as the word. *)
Definition fmt (o : option str) : str :=
  match o with
  | Some s => s
  | None => lit "None"
  end.

(** Truthiness of a value that is a string or [None]: the string, when it is
    a non-empty one. *)
Definition truthy (o : option str) : option str :=
  match o with
  | Some (c :: s) => Some (c :: s)
  | _ => None
  end.

Definition translation_prompt (detected_language text_transcript : str) : str :=
  nl ++ sp 12 ++ lit "Please translate the following transcript from "
     ++ detected_language ++ lit " to English. "
  ++ nl ++ sp 12 ++ lit "Preserve the meaning and maintain natural language flow."
  ++ nl ++ sp 12
  ++ nl ++ sp 12 ++ lit "Transcript:"
  ++ nl ++ sp 12 ++ text_transcript
  ++ nl ++ sp 12
  ++ nl ++ sp 12 ++ lit "Please provide only the English translation, no additional text."
  ++ nl ++ sp 12.

Definition notes_prompt (transcript : str) : str :=
  nl ++ sp 8 ++ lit "Based on the following transcript from a YouTube video, please create comprehensive notes and a summary."
  ++ nl
  ++ nl ++ sp 8 ++ lit "First, create detailed notes that:"
  ++ nl ++ sp 8 ++ lit "1. Extract key concepts and main ideas"
  ++ nl ++ sp 8 ++ lit "2. Organize information into logical sections"
  ++ nl ++ sp 8 ++ lit "3. Include important definitions or explanations"
  ++ nl ++ sp 8 ++ lit "4. List any significant examples or case studies mentioned"
  ++ nl ++ sp 8 ++ lit "5. Note any actionable tips or recommendations"
  ++ nl
  ++ nl ++ sp 8 ++ lit "Then, provide a concise summary of the video."
  ++ nl
  ++ nl ++ sp 8 ++ lit "Here's the transcript:"
  ++ nl
  ++ nl ++ sp 8 ++ transcript
  ++ nl
  ++ nl ++ sp 8 ++ lit "Please format your response as follows:"
  ++ nl ++ sp 8 ++ lit "NOTES:"
  ++ nl ++ sp 8 ++ lit "[Detailed notes here]"
  ++ nl
  ++ nl ++ sp 8 ++ lit "SUMMARY:"
  ++ nl ++ sp 8 ++ lit "[Concise summary here]"
  ++ nl ++ sp 8.

Definition msg_translating (detected_language : str) : str :=
  globe ++ lit " Transcript in " ++ detected_language
  ++ lit ". Translating to English using Gemini...".
Definition msg_transcript_error (e : exn) : str :=
  lit "Error getting transcript: " ++ str_of_exn e.
Definition msg_notes_error (e : exn) : str :=
  lit "Error generating notes with Gemini: " ++ str_of_exn e.
Definition msg_save_error (e : exn) : str :=
  lit "Error saving files: " ++ str_of_exn e.
Definition msg_invalid_url : str := cross_mark ++ lit " Invalid YouTube URL".
Definition msg_processing (video_id : str) : str :=
  camera ++ lit " Processing video ID: " ++ video_id.
Definition msg_no_transcript : str :=
  cross_mark ++ lit " Could not retrieve transcript. Make sure the video has subtitles/captions available.".
Definition msg_generating (language : option str) : str :=
  memo ++ lit " Generating notes with Gemini... (Original language: "
  ++ fmt language ++ lit ")".
Definition msg_no_notes : str := cross_mark ++ lit " Could not generate notes".
Definition msg_complete : str := check_mark ++ lit " Processing complete!".

(** ** [get_transcript] *)

(** One [for t in transcript] loop with its [break]: the first track whose
    [is_generated] flag is [generated] is fetched, and the assignments to
    [transcript_list] and [detected_language] are returned; [None] when the
    loop ends without a [break]. *)
Fixpoint scan (generated : bool) (ts : list Track) : M (option (Fetched * str)) :=
  match ts with
  | [] => ret None
  | t :: ts' =>
      if Bool.eqb (is_generated t) generated then
        transcript_list <- call (Fetch t) (fetch t) ;;
        ret (Some (transcript_list, language_code t))
      else scan generated ts'
  end.

(** The [for ... else]: manually created tracks first, and the scan for a
    generated one only when the first loop did not [break]. *)
Definition select_track (ts : list Track) : M (option (Fetched * str)) :=
  found <- scan false ts ;;
  match found with
  | Some x => ret (Some x)
  | None => scan true ts
  end.

(** The pair is [(transcript_list, detected_language)]; it is [None] while
    the two locals are unbound. *)
Definition acquire (w : World) (video_id : str) : M (option (Fetched * str)) :=
  try
    (transcript_list <-
       call (GetTranscript video_id) (api_get_transcript w video_id) ;;
     ret (Some (transcript_list, en)))
  except
    (fun _ =>
       transcript <-
         call (ListTranscripts video_id) (api_list_transcripts w video_id) ;;
       select_track transcript).

(** From [formatter = TextFormatter()] to the [return]: the locals are
    read, the text is formatted, and a text that is not English is sent to
    the model for translation. *)
Definition format_and_translate (w : World) (locals : option (Fetched * str))
  : M (option str * option str) :=
  match locals with
  | None => raise (UnboundLocalError (lit "transcript_list"))
  | Some (transcript_list, detected_language) =>
      text_transcript <- lift (format_transcript w transcript_list) ;;
      if negb (str_eqb detected_language en) then
        print (msg_translating detected_language) ;;
        let prompt := translation_prompt detected_language text_transcript in
        text <- call (Translate prompt) (generate_content w prompt) ;;
        ret (Some text, Some detected_language)
      else ret (Some text_transcript, Some detected_language)
  end.

Definition get_transcript (w : World) (video_id : str)
  : M (option str * option str) :=
  try
    (locals <- acquire w video_id ;;
     format_and_translate w locals)
  except
    (fun e => print (msg_transcript_error e) ;; ret (None, None)).

(** ** [generate_notes_with_gemini] *)

Definition generate_notes_with_gemini (w : World) (transcript : str)
  : M (option str) :=
  try
    (let prompt := notes_prompt transcript in
     text <- call (GenerateNotes prompt) (generate_content w prompt) ;;
     ret (Some text))
  except
    (fun e => print (msg_notes_error e) ;; ret None).

(** ** [save_to_file] *)

Definition full_name (filename : str) : str := filename ++ lit "_full.txt".
Definition notes_name (filename : str) : str := filename ++ lit "_notes.txt".
Definition summary_name (filename : str) : str := filename ++ lit "_summary.txt".
Definition transcript_name (filename : str) : str := filename ++ lit "_transcript.txt".

Definition save_to_file (w : World) (content filename : str) : M unit :=
  try
    (write_file w (full_name filename) content ;;
     parts <- lift (str_split content SUMMARY) ;;
     if Nat.eqb (length parts) 2 then
       let notes := strip (replace (nth 0 parts []) NOTES []) in
       let summary := strip (nth 1 parts []) in
       write_file w (notes_name filename) notes ;;
       write_file w (summary_name filename) summary ;;
       print (check_mark ++ lit " Files saved successfully:") ;;
       print (lit "   - " ++ full_name filename ++ lit " (Complete notes and summary)") ;;
       print (lit "   - " ++ notes_name filename ++ lit " (Just the notes)") ;;
       print (lit "   - " ++ summary_name filename ++ lit " (Just the summary)") ;;
       print (check_mark ++ lit " Raw transcript saved to: " ++ transcript_name filename)
     else
       print (check_mark ++ lit " Full content saved to: " ++ full_name filename))
  except
    (fun e => print (msg_save_error e)).

(** ** [process_youtube_video] *)

Definition process_youtube_video (w : World) (url : str) : M unit :=
  match truthy (extract_video_id url) with
  | None => print msg_invalid_url
  | Some video_id =>
      print (msg_processing video_id) ;;
      '(transcript, language) <- get_transcript w video_id ;;
      match truthy transcript with
      | None => print msg_no_transcript
      | Some transcript =>
          write_file w (transcript_name (lit "video_" ++ video_id)) transcript ;;
          print (msg_generating language) ;;
          notes_content <- generate_notes_with_gemini w transcript ;;
          match truthy notes_content with
          | None => print msg_no_notes
          | Some notes_content =>
              save_to_file w notes_content (lit "video_" ++ video_id) ;;
              print msg_complete
          end
      end
  end.

(** ** Vocabulary of the specification *)

(** An 11-character identifier over the characters of [id_set]. *)
Definition is_id (s : str) : Prop :=
  length s = 11 /\ Forall (fun c => atom_ok id_set c = true) s.

(** [s] begins with eleven identifier characters. *)
Definition id_run (s : str) : bool :=
  Nat.leb 11 (length s) && forallb (atom_ok id_set) (firstn 11 s).

(** What [([a-zA-Z0-9_-]{11})] captures at the head of [s]. *)
Definition capture_id (s : str) : option caps :=
  if id_run s then Some [(1, firstn 11 s)] else None.

(** [s] continues with [marker], and then with an identifier. *)
Definition id_after (marker s : str) : option caps :=
  if starts_with marker s then capture_id (skipn (length marker) s) else None.

(** The tail of the second pattern: [&v=] and the identifier. *)
Definition id_param (s : str) : option caps := id_after amp_v s.

(** [f] finds nothing at the first [n] positions of [s]. *)
Definition nothing_before (f : str -> option caps) (n : nat) (s : str) : Prop :=
  forall i, i < n -> f (skipn i s) = None.

(** The number of positions of [s] at which [sep] occurs. *)
Fixpoint occurrences (sep s : str) : nat :=
  (if starts_with sep s then 1 else 0) +
  match s with
  | [] => 0
  | _ :: s' => occurrences sep s'
  end.

(** The files a run wrote, in order, with their contents. *)
Fixpoint writes (tr : list Event) : list (str * str) :=
  match tr with
  | [] => []
  | WriteFile name content :: tr' => (name, content) :: writes tr'
  | _ :: tr' => writes tr'
  end.

(** The names of the files a run tried to write, successfully or not. *)
Fixpoint write_attempts (tr : list Event) : list str :=
  match tr with
  | [] => []
  | WriteFile name _ :: tr' => name :: write_attempts tr'
  | WriteFailed name _ :: tr' => name :: write_attempts tr'
  | _ :: tr' => write_attempts tr'
  end.

(** The tracks a run fetched. *)
Fixpoint fetched (tr : list Event) : list Track :=
  match tr with
  | [] => []
  | Fetch t :: tr' => t :: fetched tr'
  | _ :: tr' => fetched tr'
  end.

(** The prompts a run sent to the generative model. *)
Fixpoint translations (tr : list Event) : list str :=
  match tr with
  | [] => []
  | Translate p :: tr' => p :: translations tr'
  | _ :: tr' => translations tr'
  end.

Fixpoint notes_calls (tr : list Event) : list str :=
  match tr with
  | [] => []
  | GenerateNotes p :: tr' => p :: notes_calls tr'
  | _ :: tr' => notes_calls tr'
  end.

(** The lines a run printed. *)
Fixpoint printed (tr : list Event) : list str :=
  match tr with
  | [] => []
  | PrintLine l :: tr' => l :: printed tr'
  | _ :: tr' => printed tr'
  end.

(** The calls to the caption service: direct fetches and enumerations. *)
Fixpoint caption_calls (tr : list Event) : nat :=
  match tr with
  | [] => 0
  | GetTranscript _ :: tr' => S (caption_calls tr')
  | ListTranscripts _ :: tr' => S (caption_calls tr')
  | Fetch _ :: tr' => S (caption_calls tr')
  | _ :: tr' => caption_calls tr'
  end.

(** The events of transcript acquisition: calls to the caption service,
    the translation request, and printed lines. *)
Definition acquisition_event (ev : Event) : Prop :=
  match ev with
  | GetTranscript _ | ListTranscripts _ | Fetch _ | Translate _ | PrintLine _ => True
  | GenerateNotes _ | WriteFile _ _ | WriteFailed _ _ => False
  end.

(** The file system accepts every write. *)
Definition writable (w : World) : Prop :=
  forall name content, open_write w name content = Ok tt.

(** Part one of the split as the specification words it: a leading label
    (the first thing of the part after whitespace) and the surrounding
    whitespace taken off, the rest left as it is. *)
Definition without_leading_label (s : str) : str :=
  if starts_with NOTES s then skipn (length NOTES) s else s.

Definition spec_notes (part : str) : str :=
  strip (without_leading_label (lstrip part)).

(** A text with its whitespace and its labels ignored.  The characters kept
    so far are on a stack, last one first; a whitespace character is dropped,
    and a label is taken off the stack as soon as its last character
    completes it. *)
Definition keep (st : str) (c : char) : str :=
  if isspace c then st
  else
    let st' := c :: st in
    if starts_with (rev NOTES) st' then skipn (length NOTES) st'
    else if starts_with (rev SUMMARY) st' then skipn (length SUMMARY) st'
    else st'.

Definition bare (s : str) : str := rev (fold_left keep s []).

(** One label or one whitespace character erased somewhere in a text. *)
Inductive erase : str -> str -> Prop :=
| erase_space a c b : isspace c = true -> erase (a ++ c :: b) (a ++ b)
| erase_notes a b : erase (a ++ NOTES ++ b) (a ++ b)
| erase_summary a b : erase (a ++ SUMMARY ++ b) (a ++ b).

(** Any number of erasures. *)
Inductive erases : str -> str -> Prop :=
| erases_refl s : erases s s
| erases_step s t u : erase s t -> erases t u -> erases s u.

(** ** Sample runs *)

Definition sample_id : str := lit "abc12345678".
Definition sample_url : str := lit "https://www.youtube.com/watch?v=abc12345678".

(** Snippets joined by newlines, as the text formatter of the caption
    library does. *)
Definition join_lines (l : Fetched) : str :=
  match l with
  | [] => []
  | x :: l' => x ++ flat_map (fun y => newline :: y) l'
  end.

Definition generated_es : Track :=
  {| language_code := lit "es"; is_generated := true;
     fetch := Ok [lit "hola"] |}.
Definition manual_fr : Track :=
  {| language_code := lit "fr"; is_generated := false;
     fetch := Ok [lit "bonjour"] |}.

Definition sample_notes : str := lit "NOTES: a SUMMARY: b".

(** English captions are there, the model answers, files can be written. *)
Definition english_world : World :=
  {| api_get_transcript := fun _ => Ok [lit "hello"; lit "world"];
     api_list_transcripts := fun _ => Ok [];
     format_transcript := fun l => Ok (join_lines l);
     generate_content := fun _ => Ok sample_notes;
     open_write := fun _ _ => Ok tt |}.

(** No English captions; a generated Spanish track is enumerated before a
    manual French one. *)
Definition fallback_world : World :=
  {| api_get_transcript := fun _ => Raise (External (lit "no English transcript"));
     api_list_transcripts := fun _ => Ok [generated_es; manual_fr];
     format_transcript := fun l => Ok (join_lines l);
     generate_content := fun _ => Ok sample_notes;
     open_write := fun _ _ => Ok tt |}.

(** No captions at all. *)
Definition no_tracks_world : World :=
  {| api_get_transcript := fun _ => Raise (External (lit "no English transcript"));
     api_list_transcripts := fun _ => Ok [];
     format_transcript := fun l => Ok (join_lines l);
     generate_content := fun _ => Ok sample_notes;
     open_write := fun _ _ => Ok tt |}.

(** The working directory is not writable. *)
Definition read_only_world : World :=
  {| api_get_transcript := fun _ => Ok [lit "hello"; lit "world"];
     api_list_transcripts := fun _ => Ok [];
     format_transcript := fun l => Ok (join_lines l);
     generate_content := fun _ => Ok sample_notes;
     open_write := fun _ _ => Raise (External (lit "Permission denied")) |}.

(** The English track has no snippet: its text is empty. *)
Definition silent_world : World :=
  {| api_get_transcript := fun _ => Ok [];
     api_list_transcripts := fun _ => Ok [];
     format_transcript := fun l => Ok (join_lines l);
     generate_content := fun _ => Ok sample_notes;
     open_write := fun _ _ => Ok tt |}.

(** The model answers with an empty text. *)
Definition mute_model_world : World :=
  {| api_get_transcript := fun _ => Ok [lit "hello"; lit "world"];
     api_list_transcripts := fun _ => Ok [];
     format_transcript := fun l => Ok (join_lines l);
     generate_content := fun _ => Ok [];
     open_write := fun _ _ => Ok tt |}.

(** The model raises. *)
Definition broken_model_world : World :=
  {| api_get_transcript := fun _ => Ok [lit "hello"; lit "world"];
     api_list_transcripts := fun _ => Ok [];
     format_transcript := fun l => Ok (join_lines l);
     generate_content := fun _ => Raise (External (lit "quota exceeded"));
     open_write := fun _ _ => Ok tt |}.

(** The names of the files a run failed to write. *)
Fixpoint failed_writes (tr : list Event) : list str :=
  match tr with
  | [] => []
  | WriteFailed name _ :: tr' => name :: failed_writes tr'
  | _ :: tr' => failed_writes tr'
  end.

(** ** More sample runs *)

(** What every marker of the two patterns begins with. *)
Definition youtu : str := lit "youtu".

Definition broken_manual_de : Track :=
  {| language_code := lit "de"; is_generated := false;
     fetch := Raise (External (lit "blocked")) |}.
Definition generated_pt : Track :=
  {| language_code := lit "pt"; is_generated := true;
     fetch := Ok [lit "bom dia"] |}.

(** No English captions, and the first manual track cannot be fetched. *)
Definition broken_fetch_world : World :=
  {| api_get_transcript := fun _ => Raise (External (lit "no English transcript"));
     api_list_transcripts :=
       fun _ => Ok [generated_es; broken_manual_de; manual_fr];
     format_transcript := fun l => Ok (join_lines l);
     generate_content := fun _ => Ok sample_notes;
     open_write := fun _ _ => Ok tt |}.

(** No English captions, and generated tracks only. *)
Definition generated_only_world : World :=
  {| api_get_transcript := fun _ => Raise (External (lit "no English transcript"));
     api_list_transcripts := fun _ => Ok [generated_es; generated_pt];
     format_transcript := fun l => Ok (join_lines l);
     generate_content := fun _ => Ok sample_notes;
     open_write := fun _ _ => Ok tt |}.

(** Captions are disabled: the enumeration raises too. *)
Definition disabled_world : World :=
  {| api_get_transcript := fun _ => Raise (External (lit "no English transcript"));
     api_list_transcripts := fun _ => Raise (External (lit "subtitles are disabled"));
     format_transcript := fun l => Ok (join_lines l);
     generate_content := fun _ => Ok sample_notes;
     open_write := fun _ _ => Ok tt |}.

(** English captions are there, but the formatter cannot handle them. *)
Definition unformattable_world : World :=
  {| api_get_transcript := fun _ => Ok [lit "hello"; lit "world"];
     api_list_transcripts := fun _ => Ok [];
     format_transcript := fun _ => Raise (External (lit "'text'"));
     generate_content := fun _ => Ok sample_notes;
     open_write := fun _ _ => Ok tt |}.

(** Everything works, but the file called [name] cannot be written. *)
Definition refusing (name : str) : World :=
  {| api_get_transcript := fun _ => Ok [lit "hello"; lit "world"];
     api_list_transcripts := fun _ => Ok [];
     format_transcript := fun l => Ok (join_lines l);
     generate_content := fun _ => Ok sample_notes;
     open_write :=
       fun n _ =>
         if str_eqb n name then Raise (External (lit "Permission denied"))
         else Ok tt |}.

(** Unfolding of the computation combinators. *)
Ltac run := cbv [bind try_except lift print emit call ret raise];
            cbn [app fst snd length nth Nat.eqb].

(** * Properties *)

(** ** Lists and strings *)

Lemma starts_with_app (p s : str) : starts_with p (p ++ s) = true.
Proof.
  induction p as [|c p IH]; simpl; [reflexivity|].
  now rewrite N.eqb_refl, IH.
Qed.

Lemma skipn_length_app (p s : str) : skipn (length p) (p ++ s) = s.
Proof. induction p; simpl; auto. Qed.

Lemma starts_with_inv (p s : str) :
  starts_with p s = true -> s = p ++ skipn (length p) s.
Proof.
  revert s; induction p as [|c p IH]; intros [|d s]; simpl; try easy.
  intros H; apply andb_prop in H as [Hc Hp].
  apply N.eqb_eq in Hc; subst d.
  now rewrite <- IH.
Qed.

Lemma skipn_skipn_add {A} (i j : nat) (l : list A) :
  skipn i (skipn j l) = skipn (j + i) l.
Proof.
  revert l; induction j as [|j IH]; intros l; simpl; [reflexivity|].
  destruct l; [now rewrite skipn_nil | apply IH].
Qed.

(** ** The matcher *)

Lemma exec_text {R} (l s : str) (g : caps) (k : str -> caps -> option R) :
  exec (text l) s g k =
  if starts_with l s then k (skipn (length l) s) g else None.
Proof.
  revert s; induction l as [|c l IH]; intros s; simpl; [reflexivity|].
  destruct s as [|d s]; [reflexivity|].
  rewrite (N.eqb_sym c d).
  destruct (N.eqb d c); simpl; [apply IH | reflexivity].
Qed.

Lemma rep_run {R} (a : atom) (n : nat) (s : str) (k : str -> option R) :
  rep a n s k =
  if Nat.leb n (length s) && forallb (atom_ok a) (firstn n s)
  then k (skipn n s) else None.
Proof.
  revert s; induction n as [|n IH]; intros s; simpl; [reflexivity|].
  destruct s as [|c s]; simpl; [reflexivity|].
  rewrite IH.
  destruct (atom_ok a c); simpl; [reflexivity|].
  now rewrite andb_false_r.
Qed.

Lemma firstn_consumed {A} (n : nat) (s : list A) :
  n <= length s -> firstn (length s - length (skipn n s)) s = firstn n s.
Proof.
  intros H. rewrite length_skipn. f_equal. lia.
Qed.

(** The capturing group of both patterns. *)
Lemma exec_group_id (s : str) (g : caps) :
  exec (Group 1 (Rep 11 id_set)) s g (fun _ g' => Some g') =
  if id_run s then Some ((1, firstn 11 s) :: g) else None.
Proof.
  cbn [exec]. rewrite rep_run. fold (id_run s).
  destruct (id_run s) eqn:E; [|reflexivity].
  unfold id_run in E. apply andb_prop in E as [E _].
  apply Nat.leb_le in E.
  now rewrite firstn_consumed.
Qed.

Lemma exec_text_then_id (marker s : str) :
  exec (Cat (text marker) (Group 1 (Rep 11 id_set))) s [] (fun _ g => Some g)
  = id_after marker s.
Proof.
  cbn [exec]. rewrite exec_text. unfold id_after, capture_id.
  destruct (starts_with marker s); [|reflexivity].
  apply (exec_group_id _ []).
Qed.

Lemma exec_Cat {R} (r1 r2 : regex) (s : str) (g : caps)
      (k : str -> caps -> option R) :
  exec (Cat r1 r2) s g k = exec r1 s g (fun s' g' => exec r2 s' g' k).
Proof. reflexivity. Qed.

Lemma exec_Alt {R} (r1 r2 : regex) (s : str) (g : caps)
      (k : str -> caps -> option R) :
  exec (Alt r1 r2) s g k =
  match exec r1 s g k with Some x => Some x | None => exec r2 s g k end.
Proof. reflexivity. Qed.

(** One attempt of the first pattern: the three markers in turn. *)
Lemma match_here_a (s : str) :
  match_here pattern_a s =
  match id_after watch_v s with
  | Some g => Some g
  | None =>
      match id_after youtu_be s with
      | Some g => Some g
      | None => id_after embed s
      end
  end.
Proof.
  unfold match_here, pattern_a.
  rewrite exec_Cat, !exec_Alt, !exec_text.
  unfold id_after, capture_id.
  rewrite !exec_group_id.
  reflexivity.
Qed.

Lemma lazy_star_sound {R} (a : atom) (s : str) (k : str -> option R) (x : R) :
  lazy_star a s k = Some x -> exists i, k (skipn i s) = Some x.
Proof.
  revert x; induction s as [|c s IH]; intros x; simpl.
  - destruct (k []) eqn:E; [|discriminate].
    intros [= <-]. now exists 0.
  - destruct (k (c :: s)) eqn:E.
    + intros [= <-]. now exists 0.
    + destruct (atom_ok a c); [|discriminate].
      intros H. destruct (IH _ H) as [i Hi]. now exists (S i).
Qed.

(** The lazy star stops at the first suffix its continuation accepts. *)
Lemma lazy_star_first {R} (a : atom) (mid s : str) (k : str -> option R) :
  Forall (fun c => atom_ok a c = true) mid ->
  (forall j, j < length mid -> k (skipn j (mid ++ s)) = None) ->
  lazy_star a (mid ++ s) k = lazy_star a s k.
Proof.
  induction mid as [|c mid IH]; intros Hok Hno; [reflexivity|].
  inversion Hok as [|? ? Hc Hmid]; subst.
  assert (H0 : k (c :: mid ++ s) = None) by (apply (Hno 0); simpl; lia).
  change ((c :: mid) ++ s) with (c :: (mid ++ s)).
  cbn [lazy_star]. rewrite H0, Hc.
  apply IH; [assumption|].
  intros j Hj. apply (Hno (S j)). simpl; lia.
Qed.

Lemma lazy_star_ext {R} (a : atom) (s : str) (k k' : str -> option R) :
  (forall s', k s' = k' s') -> lazy_star a s k = lazy_star a s k'.
Proof.
  intros H; induction s as [|c s IH]; simpl; rewrite H; [reflexivity|].
  now rewrite IH.
Qed.

Lemma lazy_star_here {R} (a : atom) (s : str) (k : str -> option R) (x : R) :
  k s = Some x -> lazy_star a s k = Some x.
Proof. intros H. destruct s; simpl; now rewrite H. Qed.

Lemma match_here_b (s : str) :
  match_here pattern_b s =
  if starts_with watch_q s
  then lazy_star Dot (skipn (length watch_q) s) id_param
  else None.
Proof.
  unfold match_here, pattern_b.
  rewrite exec_Cat, exec_text.
  destruct (starts_with watch_q s); [|reflexivity].
  rewrite exec_Cat.
  change (exec (LazyStar Dot) ?t ?g ?k) with (lazy_star Dot t (fun s' => k s' g)).
  apply lazy_star_ext. intros s'. apply exec_text_then_id.
Qed.

(** ** [extract_video_id] *)

Lemma capture_id_is_id (s : str) (g : caps) :
  capture_id s = Some g -> exists id, g = [(1, id)] /\ is_id id.
Proof.
  unfold capture_id, id_run.
  destruct (Nat.leb 11 (length s)) eqn:Hlen;
    destruct (forallb (atom_ok id_set) (firstn 11 s)) eqn:Hall;
    simpl; try discriminate.
  intros [= <-]. exists (firstn 11 s). split; [reflexivity|]. split.
  - apply Nat.leb_le in Hlen. rewrite length_firstn. lia.
  - rewrite forallb_forall in Hall. now apply Forall_forall.
Qed.

Lemma capture_id_app (id post : str) :
  is_id id -> capture_id (id ++ post) = Some [(1, id)].
Proof.
  intros [Hlen Hall]. unfold capture_id, id_run.
  assert (Hfirst : firstn 11 (id ++ post) = id).
  { rewrite <- Hlen. rewrite firstn_app, Nat.sub_diag, firstn_all. simpl.
    apply app_nil_r. }
  rewrite Hfirst.
  assert (Hb : forallb (atom_ok id_set) id = true).
  { apply forallb_forall. now apply Forall_forall. }
  rewrite Hb, length_app, Hlen. reflexivity.
Qed.

Lemma id_after_is_id (marker s : str) (g : caps) :
  id_after marker s = Some g -> exists id, g = [(1, id)] /\ is_id id.
Proof.
  unfold id_after. destruct (starts_with marker s); [|discriminate].
  apply capture_id_is_id.
Qed.

Lemma id_after_app (marker id post : str) :
  is_id id -> id_after marker (marker ++ id ++ post) = Some [(1, id)].
Proof.
  intros H. unfold id_after.
  rewrite starts_with_app, skipn_length_app. now apply capture_id_app.
Qed.

Lemma match_here_a_is_id (s : str) (g : caps) :
  match_here pattern_a s = Some g -> exists id, g = [(1, id)] /\ is_id id.
Proof.
  rewrite match_here_a.
  destruct (id_after watch_v s) eqn:E1.
  { intros [= <-]. eapply id_after_is_id; eassumption. }
  destruct (id_after youtu_be s) eqn:E2.
  { intros [= <-]. eapply id_after_is_id; eassumption. }
  apply id_after_is_id.
Qed.

Lemma match_here_b_is_id (s : str) (g : caps) :
  match_here pattern_b s = Some g -> exists id, g = [(1, id)] /\ is_id id.
Proof.
  rewrite match_here_b.
  destruct (starts_with watch_q s); [|discriminate].
  intros H. apply lazy_star_sound in H as [i Hi].
  eapply id_after_is_id; eassumption.
Qed.

Lemma search_sound (r : regex) (s : str) (g : caps) :
  search r s = Some g -> exists i, match_here r (skipn i s) = Some g.
Proof.
  induction s as [|c s IH]; simpl.
  - destruct (match_here r []) eqn:E; [|discriminate].
    intros [= <-]. now exists 0.
  - destruct (match_here r (c :: s)) eqn:E.
    + intros [= <-]. now exists 0.
    + intros H. destruct (IH H) as [i Hi]. now exists (S i).
Qed.

Lemma search_here (r : regex) (s : str) (g : caps) :
  match_here r s = Some g -> search r s = Some g.
Proof. intros H. destruct s; simpl; now rewrite H. Qed.

(** [re.search] passes over the positions at which the pattern fails. *)
Lemma search_skip (r : regex) (pre s : str) :
  nothing_before (match_here r) (length pre) (pre ++ s) ->
  search r (pre ++ s) = search r s.
Proof.
  induction pre as [|c pre IH]; intros Hno; [reflexivity|].
  assert (H0 : match_here r (c :: pre ++ s) = None)
    by (apply (Hno 0); simpl; lia).
  change ((c :: pre) ++ s) with (c :: (pre ++ s)).
  cbn [search]. rewrite H0. apply IH.
  intros i Hi. apply (Hno (S i)). simpl; lia.
Qed.

(** The three markers exclude one another at a given position. *)
Lemma watch_v_excludes (x : str) :
  starts_with watch_v (youtu_be ++ x) = false /\
  starts_with watch_v (embed ++ x) = false /\
  starts_with youtu_be (embed ++ x) = false.
Proof. repeat split. Qed.

Lemma match_here_a_marker (marker id post : str) :
  In marker [watch_v; youtu_be; embed] -> is_id id ->
  match_here pattern_a (marker ++ id ++ post) = Some [(1, id)].
Proof.
  intros Hin Hid. rewrite match_here_a.
  destruct (watch_v_excludes (id ++ post)) as (H1 & H2 & H3).
  destruct Hin as [<- | [<- | [<- | []]]].
  - now rewrite id_after_app.
  - unfold id_after at 1. rewrite H1. now rewrite id_after_app.
  - unfold id_after at 1. rewrite H2.
    unfold id_after at 1. rewrite H3. now apply id_after_app.
Qed.

Lemma first_match_a (url : str) (g : caps) :
  search pattern_a url = Some g -> extract_video_id url = group 1 g.
Proof. unfold extract_video_id, patterns. simpl. now intros ->. Qed.

Lemma first_match_b (url : str) :
  search pattern_a url = None ->
  extract_video_id url =
  match search pattern_b url with Some g => group 1 g | None => None end.
Proof. unfold extract_video_id, patterns. simpl. now intros ->. Qed.

Lemma extract_video_id_is_id (url id : str) :
  extract_video_id url = Some id -> is_id id.
Proof.
  destruct (search pattern_a url) as [g|] eqn:Ea.
  - rewrite (first_match_a _ _ Ea).
    apply search_sound in Ea as [i Hi].
    apply match_here_a_is_id in Hi as (id' & -> & Hid).
    simpl. now intros [= <-].
  - rewrite (first_match_b _ Ea).
    destruct (search pattern_b url) as [g|] eqn:Eb; [|discriminate].
    apply search_sound in Eb as [i Hi].
    apply match_here_b_is_id in Hi as (id' & -> & Hid).
    simpl. now intros [= <-].
Qed.

Lemma extract_marker (pre marker id post : str) :
  In marker [watch_v; youtu_be; embed] -> is_id id ->
  nothing_before (match_here pattern_a) (length pre)
                 (pre ++ marker ++ id ++ post) ->
  extract_video_id (pre ++ marker ++ id ++ post) = Some id.
Proof.
  intros Hin Hid Hno.
  assert (E : search pattern_a (pre ++ marker ++ id ++ post) = Some [(1, id)]).
  { rewrite search_skip by assumption.
    apply search_here. now apply match_here_a_marker. }
  now rewrite (first_match_a _ _ E).
Qed.

Lemma extract_param (pre mid id post : str) :
  let url := pre ++ watch_q ++ mid ++ amp_v ++ id ++ post in
  is_id id ->
  search pattern_a url = None ->
  nothing_before (match_here pattern_b) (length pre) url ->
  Forall (fun c => c <> newline) mid ->
  nothing_before id_param (length mid) (mid ++ amp_v ++ id ++ post) ->
  extract_video_id url = Some id.
Proof.
  intros url Hid Ha Hpre Hmid Hfirst. rewrite (first_match_b _ Ha).
  assert (E : search pattern_b url = Some [(1, id)]).
  { unfold url. rewrite search_skip by assumption.
    apply search_here. rewrite match_here_b.
    rewrite starts_with_app, skipn_length_app.
    rewrite lazy_star_first.
    - apply lazy_star_here. now apply id_after_app.
    - eapply Forall_impl; [|exact Hmid].
      intros c Hc. simpl. apply negb_true_iff. now apply N.eqb_neq.
    - exact Hfirst. }
  now rewrite E.
Qed.

(** Both patterns begin with the letter [y]. *)
Lemma match_here_not_y (c : char) (s : str) :
  c <> ch "y" ->
  match_here pattern_a (c :: s) = None /\ match_here pattern_b (c :: s) = None.
Proof.
  intros Hc. apply not_eq_sym, N.eqb_neq in Hc.
  rewrite match_here_a, match_here_b. unfold id_after.
  change (starts_with watch_v (c :: s))
    with (N.eqb (ch "y") c && starts_with (tl watch_v) s).
  change (starts_with youtu_be (c :: s))
    with (N.eqb (ch "y") c && starts_with (tl youtu_be) s).
  change (starts_with embed (c :: s))
    with (N.eqb (ch "y") c && starts_with (tl embed) s).
  change (starts_with watch_q (c :: s))
    with (N.eqb (ch "y") c && starts_with (tl watch_q) s).
  now rewrite Hc.
Qed.

(** A prefix without the letter [y] holds no match of either pattern. *)
Lemma nothing_before_no_y (pre rest : str) :
  Forall (fun c => c <> ch "y") pre ->
  nothing_before (match_here pattern_a) (length pre) (pre ++ rest) /\
  nothing_before (match_here pattern_b) (length pre) (pre ++ rest).
Proof.
  induction 1 as [|c pre Hc _ [IHa IHb]].
  - split; intros i Hi; simpl in Hi; lia.
  - split; intros [|i] Hi.
    + now apply match_here_not_y.
    + apply IHa. simpl in Hi. lia.
    + now apply match_here_not_y.
    + apply IHb. simpl in Hi. lia.
Qed.

(** The usual shapes: a scheme and host prefix without [y], a marker, the
    identifier. *)
Lemma extract_plain_url (pre marker id post : str) :
  Forall (fun c => c <> ch "y") pre ->
  In marker [watch_v; youtu_be; embed] -> is_id id ->
  extract_video_id (pre ++ marker ++ id ++ post) = Some id.
Proof.
  intros Hpre Hin Hid. apply extract_marker; try assumption.
  now apply nothing_before_no_y.
Qed.

(** C1.  [extract_video_id] is a total function on strings whose result is
    either [None] or an 11-character identifier (it has no exceptional
    outcome).  A URL in which one of the markers [youtube.com/watch?v=],
    [youtu.be/], [youtube.com/embed/] is followed by an identifier, and in
    which the first pattern matches at no earlier position, yields that
    identifier.  A URL [...youtube.com/watch?<mid>&v=<id>...] yields [id]
    when the first pattern matches nowhere, the second matches at no earlier
    position, [mid] has no newline and no earlier [&v=<identifier>].  The
    first pattern is tried first: its match decides whenever it has one, and
    the second pattern decides otherwise. *)
Theorem extract_video_id_spec :
  (forall url,
     match extract_video_id url with
     | Some id => is_id id
     | None => True
     end) /\
  (forall pre marker id post,
     In marker [watch_v; youtu_be; embed] -> is_id id ->
     nothing_before (match_here pattern_a) (length pre)
                    (pre ++ marker ++ id ++ post) ->
     extract_video_id (pre ++ marker ++ id ++ post) = Some id) /\
  (forall pre mid id post,
     is_id id ->
     search pattern_a (pre ++ watch_q ++ mid ++ amp_v ++ id ++ post) = None ->
     nothing_before (match_here pattern_b) (length pre)
                    (pre ++ watch_q ++ mid ++ amp_v ++ id ++ post) ->
     Forall (fun c => c <> newline) mid ->
     nothing_before id_param (length mid) (mid ++ amp_v ++ id ++ post) ->
     extract_video_id (pre ++ watch_q ++ mid ++ amp_v ++ id ++ post) = Some id) /\
  (forall url g,
     search pattern_a url = Some g -> extract_video_id url = group 1 g) /\
  (forall url,
     search pattern_a url = None ->
     extract_video_id url =
     match search pattern_b url with Some g => group 1 g | None => None end).
Proof.
  split; [|split; [|split; [|split]]].
  - intros url. destruct (extract_video_id url) eqn:E; [|exact I].
    eapply extract_video_id_is_id; eassumption.
  - apply extract_marker.
  - intros pre mid id post. apply (extract_param pre mid id post).
  - apply first_match_a.
  - apply first_match_b.
Qed.

Lemma extract_video_id_spec_witness :
  extract_video_id (lit "https://www.youtube.com/watch?v=abc12345678")
  = Some (lit "abc12345678") /\
  extract_video_id (lit "https://youtu.be/abc12345678")
  = Some (lit "abc12345678") /\
  extract_video_id (lit "https://www.youtube.com/embed/abc12345678?rel=0")
  = Some (lit "abc12345678") /\
  extract_video_id (lit "https://www.youtube.com/watch?list=PL1&v=abc12345678")
  = Some (lit "abc12345678").
Proof.
  destruct extract_video_id_spec as (_ & Hmarker & Hparam & _ & _).
  assert (Hid : is_id (lit "abc12345678")).
  { split; [reflexivity | repeat constructor]. }
  split; [|split; [|split]].
  - apply (Hmarker (lit "https://www.") watch_v (lit "abc12345678") []).
    + simpl; auto.
    + exact Hid.
    + intros i Hi. do 12 (destruct i as [|i]; [reflexivity|]).
      simpl in Hi; lia.
  - apply (Hmarker (lit "https://") youtu_be (lit "abc12345678") []).
    + simpl; auto.
    + exact Hid.
    + intros i Hi. do 8 (destruct i as [|i]; [reflexivity|]).
      simpl in Hi; lia.
  - apply (Hmarker (lit "https://www.") embed (lit "abc12345678") (lit "?rel=0")).
    + simpl; auto.
    + exact Hid.
    + intros i Hi. do 12 (destruct i as [|i]; [reflexivity|]).
      simpl in Hi; lia.
  - apply (Hparam (lit "https://www.") (lit "list=PL1") (lit "abc12345678") []).
    + exact Hid.
    + reflexivity.
    + intros i Hi. do 12 (destruct i as [|i]; [reflexivity|]).
      simpl in Hi; lia.
    + repeat constructor; discriminate.
    + intros i Hi. do 8 (destruct i as [|i]; [reflexivity|]).
      simpl in Hi; lia.
Defined.

(** ** Computations and their traces *)

Lemma str_eqb_eq (a b : str) : str_eqb a b = true <-> a = b.
Proof.
  revert b; induction a as [|x a IH]; intros [|y b]; simpl; try easy.
  rewrite andb_true_iff, N.eqb_eq, IH.
  split; [intros [-> ->]; reflexivity | intros [= -> ->]; auto].
Qed.

Lemma str_eqb_refl (a : str) : str_eqb a a = true.
Proof. now apply str_eqb_eq. Qed.

Lemma writes_app (a b : list Event) : writes (a ++ b) = writes a ++ writes b.
Proof.
  induction a as [|[] a IH]; simpl; auto. now rewrite IH.
Qed.

Lemma write_attempts_app (a b : list Event) :
  write_attempts (a ++ b) = write_attempts a ++ write_attempts b.
Proof.
  induction a as [|[] a IH]; simpl; auto; now rewrite IH.
Qed.

Lemma fetched_app (a b : list Event) : fetched (a ++ b) = fetched a ++ fetched b.
Proof.
  induction a as [|[] a IH]; simpl; auto. now rewrite IH.
Qed.

Lemma translations_app (a b : list Event) :
  translations (a ++ b) = translations a ++ translations b.
Proof.
  induction a as [|[] a IH]; simpl; auto. now rewrite IH.
Qed.

Lemma notes_calls_app (a b : list Event) :
  notes_calls (a ++ b) = notes_calls a ++ notes_calls b.
Proof.
  induction a as [|[] a IH]; simpl; auto. now rewrite IH.
Qed.

Lemma printed_app (a b : list Event) : printed (a ++ b) = printed a ++ printed b.
Proof.
  induction a as [|[] a IH]; simpl; auto. now rewrite IH.
Qed.

Lemma caption_calls_app (a b : list Event) :
  caption_calls (a ++ b) = caption_calls a + caption_calls b.
Proof.
  induction a as [|[] a IH]; simpl; auto; now rewrite IH.
Qed.

(** ** [get_transcript] *)

(** A scan fetches at most the first track of the wanted kind, writes no
    file and calls the generative model not at all. *)
Lemma scan_first (generated : bool) (skipped : list Track) (t : Track)
      (rest : list Track) :
  Forall (fun t' => is_generated t' = negb generated) skipped ->
  is_generated t = generated ->
  scan generated (skipped ++ t :: rest) =
  match fetch t with
  | Ok d => (Ok (Some (d, language_code t)), [Fetch t])
  | Raise e => (Raise e, [Fetch t])
  end.
Proof.
  intros Hskip Ht. induction Hskip as [|t' skipped Ht' _ IH]; simpl.
  - rewrite Ht, eqb_reflx. unfold bind, call, ret.
    destruct (fetch t); reflexivity.
  - rewrite Ht'. destruct generated; simpl; exact IH.
Qed.

Lemma scan_none (generated : bool) (ts : list Track) :
  Forall (fun t => is_generated t = negb generated) ts ->
  scan generated ts = (Ok None, []).
Proof.
  induction 1 as [|t ts Ht _ IH]; simpl; [reflexivity|].
  rewrite Ht. destruct generated; simpl; exact IH.
Qed.

(** Either every track is generated, or there is a first manual one. *)
Lemma first_manual (ts : list Track) :
  Forall (fun t => is_generated t = true) ts \/
  exists gens m rest,
    ts = gens ++ m :: rest /\
    Forall (fun t => is_generated t = true) gens /\
    is_generated m = false.
Proof.
  induction ts as [|t ts IH]; [left; constructor|].
  destruct (is_generated t) eqn:Ht.
  - destruct IH as [IH | (gens & m & rest & -> & Hg & Hm)].
    + left. now constructor.
    + right. exists (t :: gens), m, rest. repeat split; auto.
  - right. exists [], t, ts. repeat split; auto.
Qed.

Lemma select_track_manual (gens : list Track) (m : Track) (rest : list Track) :
  Forall (fun t => is_generated t = true) gens ->
  is_generated m = false ->
  select_track (gens ++ m :: rest) =
  match fetch m with
  | Ok d => (Ok (Some (d, language_code m)), [Fetch m])
  | Raise e => (Raise e, [Fetch m])
  end.
Proof.
  intros Hg Hm. unfold select_track.
  rewrite (scan_first false gens m rest Hg Hm).
  destruct (fetch m); reflexivity.
Qed.

Lemma select_track_generated (t : Track) (ts : list Track) :
  Forall (fun t' => is_generated t' = true) (t :: ts) ->
  select_track (t :: ts) =
  match fetch t with
  | Ok d => (Ok (Some (d, language_code t)), [Fetch t])
  | Raise e => (Raise e, [Fetch t])
  end.
Proof.
  intros Hall. unfold select_track.
  rewrite (scan_none false _ Hall). cbn [bind ret app].
  inversion Hall as [|? ? Ht Hts]; subst.
  pose proof (scan_first true [] t ts (Forall_nil _) Ht) as E.
  cbn [app] in E. rewrite E.
  destruct (fetch t); reflexivity.
Qed.

Lemma select_track_none (ts : list Track) :
  fst (select_track ts) = Ok None <-> ts = [].
Proof.
  split; [|intros ->; reflexivity].
  destruct ts as [|t ts]; [reflexivity|].
  destruct (first_manual (t :: ts)) as [Hall | (gens & m & rest & E & Hg & Hm)].
  - rewrite (select_track_generated _ _ Hall).
    destruct (fetch t); discriminate.
  - rewrite E, (select_track_manual _ _ rest Hg Hm).
    destruct (fetch m); discriminate.
Qed.

(** The two requests to the model never carry the same prompt, so an
    answer that depends on the prompt alone can differ between them. *)
Lemma prompts_differ (detected_language text_transcript transcript : str) :
  translation_prompt detected_language text_transcript <> notes_prompt transcript.
Proof.
  unfold translation_prompt, notes_prompt. cbn [nl sp repeat app].
  intros H. now injection H.
Qed.

Lemma acquire_english (w : World) (video_id : str) (d : Fetched) :
  api_get_transcript w video_id = Ok d ->
  acquire w video_id = (Ok (Some (d, en)), [GetTranscript video_id]).
Proof. intros H. unfold acquire, call, bind, try_except. now rewrite H. Qed.

Lemma acquire_fallback (w : World) (video_id : str) (e : exn) (ts : list Track) :
  api_get_transcript w video_id = Raise e ->
  api_list_transcripts w video_id = Ok ts ->
  acquire w video_id =
  (fst (select_track ts),
   [GetTranscript video_id; ListTranscripts video_id] ++ snd (select_track ts)).
Proof.
  intros He Hl. unfold acquire, call, bind, try_except.
  rewrite He, Hl. cbn [fst snd]. now destruct (select_track ts).
Qed.

(** [get_transcript] has no exceptional outcome. *)
Lemma get_transcript_returns (w : World) (video_id : str) :
  exists v, fst (get_transcript w video_id) = Ok v.
Proof.
  unfold get_transcript, try_except, bind.
  destruct (acquire w video_id) as [[locals|e] tr]; cbn; eauto.
  destruct (format_and_translate w locals) as [[v|e] tr']; cbn; eauto.
Qed.

Lemma get_transcript_english (w : World) (video_id : str) (d : Fetched)
      (text : str) :
  api_get_transcript w video_id = Ok d ->
  format_transcript w d = Ok text ->
  get_transcript w video_id =
  (Ok (Some text, Some en), [GetTranscript video_id]).
Proof.
  intros H Hfmt. unfold get_transcript. rewrite (acquire_english _ _ _ H).
  unfold format_and_translate. run. rewrite Hfmt. reflexivity.
Qed.

Lemma get_transcript_english_unformatted (w : World) (video_id : str)
      (d : Fetched) (e : exn) :
  api_get_transcript w video_id = Ok d ->
  format_transcript w d = Raise e ->
  get_transcript w video_id =
  (Ok (None, None),
   [GetTranscript video_id; PrintLine (msg_transcript_error e)]).
Proof.
  intros H Hfmt. unfold get_transcript. rewrite (acquire_english _ _ _ H).
  unfold format_and_translate. run. rewrite Hfmt. reflexivity.
Qed.

(** C7, as the code has it.  When the direct fetch of the English track
    succeeds, [get_transcript] sends no translation request and fetches no
    enumerated track.  When the formatter then returns a text, that text is
    returned with the language code [en], the fetch being the only thing
    done; when the formatter raises, the error line is printed and
    [(None, None)] is returned. *)
Theorem english_fetch_no_translation (w : World) (video_id : str) (d : Fetched) :
  api_get_transcript w video_id = Ok d ->
  translations (snd (get_transcript w video_id)) = [] /\
  fetched (snd (get_transcript w video_id)) = [] /\
  (forall text,
     format_transcript w d = Ok text ->
     get_transcript w video_id =
     (Ok (Some text, Some en), [GetTranscript video_id])) /\
  (forall e,
     format_transcript w d = Raise e ->
     get_transcript w video_id =
     (Ok (None, None),
      [GetTranscript video_id; PrintLine (msg_transcript_error e)])).
Proof.
  intros H.
  assert (Hok : forall text,
             format_transcript w d = Ok text ->
             get_transcript w video_id =
             (Ok (Some text, Some en), [GetTranscript video_id]))
    by (intros text; now apply get_transcript_english).
  assert (Hno : forall e,
             format_transcript w d = Raise e ->
             get_transcript w video_id =
             (Ok (None, None),
              [GetTranscript video_id; PrintLine (msg_transcript_error e)]))
    by (intros e; now apply get_transcript_english_unformatted).
  split; [|split; [|split; [exact Hok | exact Hno]]];
    (destruct (format_transcript w d) as [text|e] eqn:Hfmt;
     [rewrite (Hok text eq_refl) | rewrite (Hno e eq_refl)]; reflexivity).
Qed.

Lemma english_fetch_no_translation_witness :
  translations (snd (get_transcript english_world sample_id)) = [] /\
  get_transcript english_world sample_id =
  (Ok (Some (lit "hello" ++ nl ++ lit "world"), Some en),
   [GetTranscript sample_id]).
Proof.
  destruct (english_fetch_no_translation english_world sample_id
              [lit "hello"; lit "world"] eq_refl)
    as (Ht & _ & Hok & _).
  split; [exact Ht|].
  apply Hok. reflexivity.
Defined.

(** C7 as stated fails: the English fetch succeeds, the formatter raises
    inside the outer [try], and [(None, None)] is returned. *)
Lemma english_fetch_unformatted_counterexample :
  api_get_transcript unformattable_world sample_id
  = Ok [lit "hello"; lit "world"] /\
  get_transcript unformattable_world sample_id =
  (Ok (None, None),
   [GetTranscript sample_id;
    PrintLine (msg_transcript_error (External (lit "'text'")))]) /\
  ~ exists text,
      fst (get_transcript unformattable_world sample_id)
      = Ok (Some text, Some en).
Proof.
  split; [reflexivity|]. split; [reflexivity|].
  intros [text H]. discriminate H.
Qed.

(** What [get_transcript] does once the enumeration has settled on the
    track [t]. *)
Lemma get_transcript_selected (w : World) (video_id : str) (e : exn)
      (ts : list Track) (t : Track) :
  api_get_transcript w video_id = Raise e ->
  api_list_transcripts w video_id = Ok ts ->
  select_track ts =
    match fetch t with
    | Ok d => (Ok (Some (d, language_code t)), [Fetch t])
    | Raise e' => (Raise e', [Fetch t])
    end ->
  fetched (snd (get_transcript w video_id)) = [t] /\
  forall d original, fetch t = Ok d -> format_transcript w d = Ok original ->
    (language_code t = en ->
     fst (get_transcript w video_id) = Ok (Some original, Some en)) /\
    (language_code t <> en ->
     forall text,
       generate_content w (translation_prompt (language_code t) original)
       = Ok text ->
       fst (get_transcript w video_id) = Ok (Some text, Some (language_code t))).
Proof.
  intros He Hl Hsel. unfold get_transcript.
  rewrite (acquire_fallback _ _ _ _ He Hl), Hsel.
  destruct (fetch t) as [d|e'] eqn:Hf; cbn [fst snd].
  2:{ split; [reflexivity | discriminate]. }
  unfold format_and_translate, bind, try_except, call, print, emit, ret, lift.
  destruct (format_transcript w d) as [original|e'] eqn:Hfmt.
  2:{ split; [reflexivity|]. intros d' o Hd Ho. injection Hd as Hd. subst d'.
      rewrite Hfmt in Ho. discriminate Ho. }
  destruct (str_eqb (language_code t) en) eqn:Hen; cbn [negb].
  - split; [reflexivity|]. intros d' o Hd Ho. injection Hd as Hd. subst d'.
    rewrite Hfmt in Ho. injection Ho as Ho. subst o. split.
    + intros ->. reflexivity.
    + intros Hne. apply str_eqb_eq in Hen. contradiction.
  - destruct (generate_content w
                (translation_prompt (language_code t) original))
      as [text|e'] eqn:Hg; cbn [fst snd app fetched].
    + split; [reflexivity|]. intros d' o Hd Ho. injection Hd as Hd. subst d'.
      rewrite Hfmt in Ho. injection Ho as Ho. subst o. split.
      * intros E. rewrite E, str_eqb_refl in Hen. discriminate.
      * intros _ text' Hg'. rewrite Hg in Hg'. now injection Hg' as ->.
    + split; [reflexivity|]. intros d' o Hd Ho. injection Hd as Hd. subst d'.
      rewrite Hfmt in Ho. injection Ho as Ho. subst o. split.
      * intros E. rewrite E, str_eqb_refl in Hen. discriminate.
      * intros _ text' Hg'. rewrite Hg in Hg'. discriminate.
Qed.

(** C2.  In the fall-back path (the English fetch failed and the tracks were
    enumerated), when the enumeration holds a manually created track, the
    first such track is the one and only track fetched, however many
    generated tracks come before it; its formatted text and its language
    code are what [get_transcript] goes on with (returned as they are for
    English, and through the translation otherwise).  A generated track is
    fetched only when every enumerated track is a generated one. *)
Theorem manual_track_preferred :
  (forall (w : World) (video_id : str) (e : exn)
          (gens : list Track) (m : Track) (rest : list Track),
     api_get_transcript w video_id = Raise e ->
     api_list_transcripts w video_id = Ok (gens ++ m :: rest) ->
     Forall (fun t => is_generated t = true) gens ->
     is_generated m = false ->
     fetched (snd (get_transcript w video_id)) = [m] /\
     forall d original,
       fetch m = Ok d -> format_transcript w d = Ok original ->
       (language_code m = en ->
        fst (get_transcript w video_id) = Ok (Some original, Some en)) /\
       (language_code m <> en ->
        forall text,
          generate_content w (translation_prompt (language_code m) original)
          = Ok text ->
          fst (get_transcript w video_id)
          = Ok (Some text, Some (language_code m)))) /\
  (forall (w : World) (video_id : str) (e : exn) (ts : list Track) (t : Track),
     api_get_transcript w video_id = Raise e ->
     api_list_transcripts w video_id = Ok ts ->
     In t (fetched (snd (get_transcript w video_id))) ->
     is_generated t = true ->
     Forall (fun t' => is_generated t' = true) ts).
Proof.
  split.
  - intros w video_id e gens m rest He Hl Hg Hm.
    apply (get_transcript_selected _ _ _ _ m He Hl).
    now apply select_track_manual.
  - intros w video_id e ts t He Hl Hin Ht.
    destruct (first_manual ts) as [Hall | (gens & m & rest & E & Hg & Hm)];
      [assumption|].
    subst ts.
    destruct (get_transcript_selected _ _ _ _ m He Hl
                (select_track_manual _ _ rest Hg Hm)) as [Hf _].
    rewrite Hf in Hin. destruct Hin as [<- | []]. congruence.
Qed.

Lemma manual_track_preferred_witness :
  fetched (snd (get_transcript fallback_world sample_id)) = [manual_fr] /\
  fst (get_transcript fallback_world sample_id)
  = Ok (Some sample_notes, Some (lit "fr")).
Proof.
  destruct manual_track_preferred as [H _].
  destruct (H fallback_world sample_id (External (lit "no English transcript"))
              [generated_es] manual_fr [])
    as [Hf Hr].
  - reflexivity.
  - reflexivity.
  - repeat constructor.
  - reflexivity.
  - split; [exact Hf|].
    destruct (Hr [lit "bonjour"] (lit "bonjour") eq_refl eq_refl) as [_ Htr].
    apply Htr; [discriminate | reflexivity].
Defined.

(** ** [find], [split] and [replace] *)

Lemma find_eq (sep s : str) :
  find sep s =
  if starts_with sep s then Some ([], skipn (length sep) s)
  else
    match s with
    | [] => None
    | c :: s' =>
        match find sep s' with
        | Some (a, b) => Some (c :: a, b)
        | None => None
        end
    end.
Proof. destruct s; reflexivity. Qed.

(** The text is the part before, the separator and the part after. *)
Lemma find_cut (sep s a b : str) :
  find sep s = Some (a, b) -> s = a ++ sep ++ b.
Proof.
  revert a b; induction s as [|c s IH]; intros a b; rewrite find_eq.
  - destruct (starts_with sep []) eqn:E; [|discriminate].
    intros [= <- <-]. now apply starts_with_inv.
  - destruct (starts_with sep (c :: s)) eqn:E.
    + intros [= <- <-]. now apply starts_with_inv.
    + destruct (find sep s) as [[a' b']|]; [|discriminate].
      intros [= <- <-]. simpl. f_equal. now apply IH.
Qed.

Lemma find_shorter (c : char) (sep s a b : str) :
  find (c :: sep) s = Some (a, b) -> length b < length s.
Proof.
  intros H. apply find_cut in H. subst s.
  rewrite !length_app. simpl. lia.
Qed.

Lemma find_none_occurrences (sep s : str) :
  find sep s = None <-> occurrences sep s = 0.
Proof.
  induction s as [|c s IH]; rewrite find_eq; cbn [occurrences].
  - destruct (starts_with sep []); split; (discriminate || reflexivity).
  - destruct (starts_with sep (c :: s)).
    + split; discriminate.
    + cbn [Nat.add]. rewrite <- IH.
      destruct (find sep s) as [[a b]|]; split; (discriminate || reflexivity).
Qed.

(** [SUMMARY:] does not overlap itself: the positions covered by one
    occurrence start no other. *)
Lemma occurrences_summary_head (b : str) :
  occurrences SUMMARY (SUMMARY ++ b) = S (occurrences SUMMARY b).
Proof. reflexivity. Qed.

Lemma occurrences_summary_cut (s a b : str) :
  find SUMMARY s = Some (a, b) ->
  occurrences SUMMARY s = S (occurrences SUMMARY b).
Proof.
  revert a; induction s as [|c s IH]; intros a; rewrite find_eq.
  - discriminate.
  - destruct (starts_with SUMMARY (c :: s)) eqn:E.
    + intros [= <- <-].
      rewrite (starts_with_inv _ _ E) at 1.
      apply occurrences_summary_head.
    + destruct (find SUMMARY s) as [[a' b']|] eqn:F; [|discriminate].
      intros [= <- <-]. cbn [occurrences]. rewrite E. cbn [Nat.add].
      now apply (IH a').
Qed.

Lemma split_aux_parts (fuel : nat) (s : str) :
  length s <= fuel ->
  length (split_aux fuel SUMMARY s) = S (occurrences SUMMARY s).
Proof.
  revert s; induction fuel as [|fuel IH]; intros s Hlen.
  - destruct s; [reflexivity | simpl in Hlen; lia].
  - cbn [split_aux].
    destruct (find SUMMARY s) as [[a b]|] eqn:F.
    + cbn [length]. rewrite (occurrences_summary_cut _ _ _ F). f_equal.
      apply IH. apply find_shorter in F. lia.
    + apply find_none_occurrences in F. now rewrite F.
Qed.

Lemma str_split_summary (s : str) :
  str_split s SUMMARY = Ok (split_aux (length s) SUMMARY s).
Proof. reflexivity. Qed.

(** The number of parts is one more than the number of markers. *)
Lemma str_split_parts (s : str) (parts : list str) :
  str_split s SUMMARY = Ok parts ->
  length parts = S (occurrences SUMMARY s).
Proof.
  rewrite str_split_summary. intros [= <-]. now apply split_aux_parts.
Qed.

Lemma split_aux_one (fuel : nat) (sep s p : str) :
  split_aux fuel sep s = [p] -> p = s.
Proof.
  destruct fuel as [|fuel]; cbn [split_aux]; [now intros [= <-]|].
  destruct (find sep s) as [[a b]|]; [|now intros [= <-]].
  destruct fuel; cbn [split_aux]; [discriminate|].
  destruct (find sep b) as [[a' b']|]; discriminate.
Qed.

Lemma split_aux_two (fuel : nat) (sep s p0 p1 : str) :
  split_aux fuel sep s = [p0; p1] -> s = p0 ++ sep ++ p1.
Proof.
  destruct fuel as [|fuel]; cbn [split_aux]; [discriminate|].
  destruct (find sep s) as [[a b]|] eqn:F; [|discriminate].
  intros [= <- H]. apply split_aux_one in H. subst p1.
  now apply find_cut.
Qed.

(** A text split in two is the two parts around the marker. *)
Lemma str_split_two (s p0 p1 : str) :
  str_split s SUMMARY = Ok [p0; p1] -> s = p0 ++ SUMMARY ++ p1.
Proof.
  rewrite str_split_summary. intros [= H]. now apply split_aux_two in H.
Qed.

Lemma str_split_one_marker (s : str) :
  occurrences SUMMARY s = 1 ->
  exists p0 p1, str_split s SUMMARY = Ok [p0; p1].
Proof.
  intros H. rewrite str_split_summary.
  pose proof (split_aux_parts (length s) s (le_n _)) as L. rewrite H in L.
  destruct (split_aux (length s) SUMMARY s) as [|p0 [|p1 [|]]];
    try discriminate.
  now exists p0, p1.
Qed.

Lemma find_empty (c : char) (sep : str) : find (c :: sep) [] = None.
Proof. reflexivity. Qed.

Lemma starts_with_longer (p s x : str) :
  starts_with p s = true -> starts_with p (s ++ x) = true.
Proof.
  revert s; induction p as [|c p IH]; intros [|d s]; simpl; try easy.
  intros H. apply andb_prop in H as [-> H]. now rewrite IH.
Qed.

(** [find] stops at the first occurrence: there is none in the text before
    it. *)
Lemma find_first (c : char) (sep s a b : str) :
  find (c :: sep) s = Some (a, b) -> find (c :: sep) a = None.
Proof.
  revert a; induction s as [|d s IH]; intros a; rewrite find_eq.
  - discriminate.
  - destruct (starts_with (c :: sep) (d :: s)) eqn:E.
    + now intros [= <- <-].
    + destruct (find (c :: sep) s) as [[a' b']|] eqn:F; [|discriminate].
      intros [= <- <-]. rewrite find_eq, (IH a' eq_refl).
      destruct (starts_with (c :: sep) (d :: a')) eqn:E'; [|reflexivity].
      apply (starts_with_longer _ _ ((c :: sep) ++ b')) in E'.
      apply find_cut in F. subst s.
      change ((d :: a') ++ (c :: sep) ++ b') with (d :: a' ++ (c :: sep) ++ b')
        in E'.
      congruence.
Qed.

(** The fuel of [str_split] is enough: more of it changes nothing, the parts
    joined by the separator are the text, and no part holds the separator. *)
Lemma split_aux_fuel (c : char) (sep s : str) (fuel fuel' : nat) :
  length s <= fuel -> length s <= fuel' ->
  split_aux fuel (c :: sep) s = split_aux fuel' (c :: sep) s.
Proof.
  revert s fuel'; induction fuel as [|fuel IH]; intros s fuel' H H'.
  - destruct s; [|simpl in H; lia]. now destruct fuel'.
  - destruct fuel' as [|fuel'].
    + destruct s; [|simpl in H'; lia]. reflexivity.
    + cbn [split_aux].
      destruct (find (c :: sep) s) as [[a b]|] eqn:F; [|reflexivity].
      apply find_shorter in F. f_equal. apply IH; lia.
Qed.

Lemma split_aux_join (fuel : nat) (c : char) (sep s : str) :
  str_join (c :: sep) (split_aux fuel (c :: sep) s) = s.
Proof.
  revert s; induction fuel as [|fuel IH]; intros s; [reflexivity|].
  cbn [split_aux].
  destruct (find (c :: sep) s) as [[a b]|] eqn:F; [|reflexivity].
  cbn [str_join]. specialize (IH b).
  destruct (split_aux fuel (c :: sep) b) as [|p ps] eqn:E.
  - destruct fuel; cbn [split_aux] in E; [discriminate|].
    destruct (find (c :: sep) b) as [[]|]; discriminate.
  - rewrite IH. symmetry. now apply find_cut.
Qed.

Lemma split_aux_parts_free (fuel : nat) (c : char) (sep s : str) :
  length s <= fuel ->
  Forall (fun p => find (c :: sep) p = None) (split_aux fuel (c :: sep) s).
Proof.
  revert s; induction fuel as [|fuel IH]; intros s H.
  - destruct s; [|simpl in H; lia]. repeat constructor.
  - cbn [split_aux].
    destruct (find (c :: sep) s) as [[a b]|] eqn:F.
    + constructor; [eapply find_first; eassumption|].
      apply IH. apply find_shorter in F. lia.
    + now repeat constructor.
Qed.

Lemma replace_aux_fuel (c : char) (old new s : str) (fuel fuel' : nat) :
  length s <= fuel -> length s <= fuel' ->
  replace_aux fuel (c :: old) new s = replace_aux fuel' (c :: old) new s.
Proof.
  revert s fuel'; induction fuel as [|fuel IH]; intros s fuel' H H'.
  - destruct s; [|simpl in H; lia]. now destruct fuel'.
  - destruct fuel' as [|fuel'].
    + destruct s; [|simpl in H'; lia]. reflexivity.
    + cbn [replace_aux].
      destruct (find (c :: old) s) as [[a b]|] eqn:F; [|reflexivity].
      apply find_shorter in F. do 2 f_equal. apply IH; lia.
Qed.

(** ** [strip] *)

Lemma lstrip_spaces (ws s : str) :
  Forall (fun c => isspace c = true) ws -> lstrip (ws ++ s) = lstrip s.
Proof.
  induction 1 as [|c ws Hc _ IH]; simpl; [reflexivity|]. now rewrite Hc.
Qed.

(** What [lstrip] takes off is whitespace. *)
Lemma lstrip_cut (s : str) :
  exists ws, Forall (fun c => isspace c = true) ws /\ s = ws ++ lstrip s.
Proof.
  induction s as [|c s (ws & Hws & E)]; [now exists []|].
  simpl. destruct (isspace c) eqn:Hc.
  - exists (c :: ws). split; [now constructor | simpl; now f_equal].
  - now exists [].
Qed.

Lemma rstrip_cut (s : str) :
  exists ws, Forall (fun c => isspace c = true) ws /\ s = rstrip s ++ ws.
Proof.
  destruct (lstrip_cut (rev s)) as (ws & Hws & E).
  exists (rev ws). split.
  - now apply Forall_rev.
  - unfold rstrip. rewrite <- rev_app_distr, <- E. symmetry. apply rev_involutive.
Qed.

(** ** [replace] *)

Lemma replace_notes (s : str) :
  replace s NOTES [] = replace_aux (length s) NOTES [] s.
Proof. reflexivity. Qed.

(** A whitespace character starts no label. *)
Lemma space_not_label (c : char) (s : str) :
  isspace c = true -> starts_with NOTES (c :: s) = false.
Proof.
  intros Hc. destruct (N.eqb_spec 78 c) as [<-|Hne]; [discriminate|].
  change (starts_with NOTES (c :: s))
    with (N.eqb 78 c && starts_with (tl NOTES) s).
  apply N.eqb_neq in Hne. now rewrite Hne.
Qed.

Lemma find_notes_after_spaces (ws rest : str) :
  Forall (fun c => isspace c = true) ws ->
  find NOTES (ws ++ NOTES ++ rest) = Some (ws, rest).
Proof.
  induction 1 as [|c ws Hc _ IH].
  - rewrite find_eq. cbn [app]. rewrite starts_with_app, skipn_length_app.
    reflexivity.
  - change ((c :: ws) ++ NOTES ++ rest) with (c :: (ws ++ NOTES ++ rest)).
    rewrite find_eq, space_not_label, IH by assumption. reflexivity.
Qed.

Lemma replace_aux_none (fuel : nat) (old new s : str) :
  find old s = None -> replace_aux fuel old new s = s.
Proof. intros H. destruct fuel; simpl; [reflexivity | now rewrite H]. Qed.

(** When the only label of a part is a leading one, [replace] takes off
    exactly that label. *)
Lemma replace_leading_label (ws rest : str) :
  Forall (fun c => isspace c = true) ws ->
  occurrences NOTES rest = 0 ->
  replace (ws ++ NOTES ++ rest) NOTES [] = ws ++ rest.
Proof.
  intros Hws Hocc. rewrite replace_notes.
  rewrite !length_app. change (length NOTES) with 6.
  replace (length ws + (6 + length rest)) with (S (length ws + 5 + length rest))
    by lia.
  cbn [replace_aux]. rewrite find_notes_after_spaces by assumption.
  rewrite replace_aux_none; [reflexivity|].
  now apply find_none_occurrences.
Qed.

(** ** Texts without labels and whitespace *)

Lemma keep_space (st : str) (c : char) : isspace c = true -> keep st c = st.
Proof. intros H. unfold keep. now rewrite H. Qed.

Lemma keep_spaces (ws st : str) :
  Forall (fun c => isspace c = true) ws -> fold_left keep ws st = st.
Proof.
  induction 1 as [|c ws Hc _ IH]; simpl; [reflexivity|].
  now rewrite keep_space.
Qed.

Lemma keep_notes (st : str) : fold_left keep NOTES st = st.
Proof. reflexivity. Qed.

Lemma keep_summary (st : str) : fold_left keep SUMMARY st = st.
Proof. reflexivity. Qed.

Lemma keep_lstrip (s st : str) : fold_left keep (lstrip s) st = fold_left keep s st.
Proof.
  destruct (lstrip_cut s) as (ws & Hws & E).
  transitivity (fold_left keep (ws ++ lstrip s) st); [|now rewrite <- E].
  now rewrite fold_left_app, (keep_spaces _ st Hws).
Qed.

Lemma keep_rstrip (s st : str) : fold_left keep (rstrip s) st = fold_left keep s st.
Proof.
  destruct (rstrip_cut s) as (ws & Hws & E).
  transitivity (fold_left keep (rstrip s ++ ws) st); [|now rewrite <- E].
  rewrite fold_left_app. symmetry. now apply keep_spaces.
Qed.

Lemma keep_strip (s st : str) : fold_left keep (strip s) st = fold_left keep s st.
Proof. unfold strip. now rewrite keep_rstrip, keep_lstrip. Qed.

Lemma keep_replace_aux (fuel : nat) (s st : str) :
  fold_left keep (replace_aux fuel NOTES [] s) st = fold_left keep s st.
Proof.
  revert s st; induction fuel as [|fuel IH]; intros s st; [reflexivity|].
  cbn [replace_aux].
  destruct (find NOTES s) as [[a b]|] eqn:F; [|reflexivity].
  transitivity (fold_left keep (a ++ NOTES ++ b) st);
    [|now rewrite <- (find_cut _ _ _ _ F)].
  cbn [app]. now rewrite !fold_left_app, IH, keep_notes.
Qed.

Lemma keep_replace (s st : str) :
  fold_left keep (replace s NOTES []) st = fold_left keep s st.
Proof. rewrite replace_notes. apply keep_replace_aux. Qed.

(** Erasing a label or a whitespace character changes nothing in the bare
    text. *)
Lemma bare_erase (s t : str) : erase s t -> bare s = bare t.
Proof.
  unfold bare. intros H. f_equal.
  destruct H as [a c b Hc | a b | a b]; rewrite !fold_left_app.
  - cbn [fold_left]. now rewrite keep_space.
  - now rewrite keep_notes.
  - now rewrite keep_summary.
Qed.

Lemma bare_erases (s t : str) : erases s t -> bare s = bare t.
Proof.
  induction 1 as [|s t u H _ IH]; [reflexivity|].
  now rewrite (bare_erase _ _ H).
Qed.

Lemma erases_trans (s t u : str) : erases s t -> erases t u -> erases s u.
Proof.
  induction 1 as [|s t v H _ IH]; [auto|].
  intros Hu. eapply erases_step; [exact H | auto].
Qed.

Lemma erase_app (s t x : str) : erase s t -> erase (s ++ x) (t ++ x).
Proof.
  intros [a c b Hc | a b | a b]; rewrite <- !app_assoc.
  - rewrite <- app_comm_cons. now constructor.
  - constructor.
  - constructor.
Qed.

Lemma erases_app (s t x : str) : erases s t -> erases (s ++ x) (t ++ x).
Proof.
  induction 1 as [|s t u H _ IH]; [constructor|].
  eapply erases_step; [apply erase_app; exact H | exact IH].
Qed.

Lemma keep_erases (st : str) (c : char) :
  erases (rev st ++ [c]) (rev (keep st c)).
Proof.
  unfold keep. destruct (isspace c) eqn:Hc.
  { eapply erases_step; [now apply erase_space | rewrite app_nil_r; constructor]. }
  cbv zeta.
  destruct (starts_with (rev NOTES) (c :: st)) eqn:HN.
  { apply starts_with_inv in HN.
    change (rev st ++ [c]) with (rev (c :: st)). rewrite HN at 1.
    rewrite rev_app_distr, rev_involutive.
    eapply erases_step.
    - rewrite <- (app_nil_r NOTES) at 1. apply erase_notes.
    - rewrite app_nil_r. constructor. }
  destruct (starts_with (rev SUMMARY) (c :: st)) eqn:HS.
  { apply starts_with_inv in HS.
    change (rev st ++ [c]) with (rev (c :: st)). rewrite HS at 1.
    rewrite rev_app_distr, rev_involutive.
    eapply erases_step.
    - rewrite <- (app_nil_r SUMMARY) at 1. apply erase_summary.
    - rewrite app_nil_r. constructor. }
  constructor.
Qed.

Lemma fold_keep_erases (s st : str) :
  erases (rev st ++ s) (rev (fold_left keep s st)).
Proof.
  revert st; induction s as [|c s IH]; intros st; cbn [fold_left].
  - rewrite app_nil_r. constructor.
  - change (c :: s) with ([c] ++ s). rewrite app_assoc.
    eapply erases_trans; [apply erases_app, keep_erases | apply IH].
Qed.

(** The bare text is what is left of the text once labels and whitespace
    have been erased, and two texts that differ by such erasures have the
    same bare text. *)
Lemma bare_reached (s : str) : erases s (bare s).
Proof. apply (fold_keep_erases s []). Qed.

(** ** [save_to_file] *)

Lemma write_file_ok (w : World) (name content : str) :
  open_write w name content = Ok tt ->
  write_file w name content = (Ok tt, [WriteFile name content]).
Proof. intros H. unfold write_file. now rewrite H. Qed.

Lemma write_file_raise (w : World) (name content : str) (e : exn) :
  open_write w name content = Raise e ->
  write_file w name content = (Raise e, [WriteFailed name content]).
Proof. intros H. unfold write_file. now rewrite H. Qed.

(** [save_to_file] has no exceptional outcome. *)
Lemma save_to_file_returns (w : World) (content filename : str) :
  fst (save_to_file w content filename) = Ok tt.
Proof.
  unfold save_to_file.
  match goal with |- fst (try_except ?m _) = _ => destruct m as [[[]|e] tr] end;
    reflexivity.
Qed.

Lemma save_to_file_two (w : World) (content filename p0 p1 : str) :
  str_split content SUMMARY = Ok [p0; p1] ->
  open_write w (full_name filename) content = Ok tt ->
  open_write w (notes_name filename) (strip (replace p0 NOTES [])) = Ok tt ->
  open_write w (summary_name filename) (strip p1) = Ok tt ->
  save_to_file w content filename =
  (Ok tt,
   [WriteFile (full_name filename) content;
    WriteFile (notes_name filename) (strip (replace p0 NOTES []));
    WriteFile (summary_name filename) (strip p1);
    PrintLine (check_mark ++ lit " Files saved successfully:");
    PrintLine (lit "   - " ++ full_name filename ++ lit " (Complete notes and summary)");
    PrintLine (lit "   - " ++ notes_name filename ++ lit " (Just the notes)");
    PrintLine (lit "   - " ++ summary_name filename ++ lit " (Just the summary)");
    PrintLine (check_mark ++ lit " Raw transcript saved to: " ++ transcript_name filename)]).
Proof.
  intros Hs Hf Hn Hsum. unfold save_to_file.
  rewrite Hs, (write_file_ok _ _ _ Hf). run.
  rewrite (write_file_ok _ _ _ Hn), (write_file_ok _ _ _ Hsum).
  reflexivity.
Qed.

Lemma save_to_file_whole (w : World) (content filename : str) (parts : list str) :
  str_split content SUMMARY = Ok parts ->
  length parts <> 2 ->
  open_write w (full_name filename) content = Ok tt ->
  save_to_file w content filename =
  (Ok tt,
   [WriteFile (full_name filename) content;
    PrintLine (check_mark ++ lit " Full content saved to: " ++ full_name filename)]).
Proof.
  intros Hs Hlen Hf. unfold save_to_file.
  rewrite Hs, (write_file_ok _ _ _ Hf). run.
  apply Nat.eqb_neq in Hlen. now rewrite Hlen.
Qed.

Lemma save_to_file_refused (w : World) (content filename : str) (e : exn) :
  open_write w (full_name filename) content = Raise e ->
  save_to_file w content filename =
  (Ok tt, [WriteFailed (full_name filename) content; PrintLine (msg_save_error e)]).
Proof.
  intros Hf. unfold save_to_file.
  now rewrite (write_file_raise _ _ _ _ Hf).
Qed.

(** C8.  When the text holds no [SUMMARY:] marker or more than one,
    [save_to_file] tries to write the full file and no other; and when that
    write goes through, the whole run of the function is that write, with
    the entire text, followed by the line announcing the full file: no notes
    file, no summary file, and no error line. *)
Theorem unsectioned_text_saved_whole (w : World) (content filename : str) :
  occurrences SUMMARY content <> 1 ->
  write_attempts (snd (save_to_file w content filename)) = [full_name filename] /\
  (open_write w (full_name filename) content = Ok tt ->
   save_to_file w content filename =
   (Ok tt,
    [WriteFile (full_name filename) content;
     PrintLine (check_mark ++ lit " Full content saved to: " ++ full_name filename)])).
Proof.
  intros Hocc.
  assert (Hlen : length (split_aux (length content) SUMMARY content) <> 2).
  { rewrite split_aux_parts by apply le_n. lia. }
  assert (Hok : open_write w (full_name filename) content = Ok tt ->
                save_to_file w content filename =
                (Ok tt,
                 [WriteFile (full_name filename) content;
                  PrintLine (check_mark ++ lit " Full content saved to: "
                         ++ full_name filename)])).
  { intros Hf. eapply save_to_file_whole; eauto using str_split_summary. }
  split; [|exact Hok].
  destruct (open_write w (full_name filename) content) as [[]|e] eqn:Hf.
  - now rewrite Hok.
  - now rewrite (save_to_file_refused _ _ _ _ Hf).
Qed.

Lemma unsectioned_text_saved_whole_witness :
  write_attempts
    (snd (save_to_file english_world (lit "SUMMARY: a SUMMARY: b") (lit "video_x")))
  = [lit "video_x_full.txt"] /\
  writes
    (snd (save_to_file english_world (lit "no marker here") (lit "video_x")))
  = [(lit "video_x_full.txt", lit "no marker here")].
Proof.
  split.
  - apply (unsectioned_text_saved_whole english_world
             (lit "SUMMARY: a SUMMARY: b") (lit "video_x")).
    simpl. lia.
  - destruct (unsectioned_text_saved_whole english_world
                (lit "no marker here") (lit "video_x")) as [_ H].
    + simpl. lia.
    + rewrite H; reflexivity.
Defined.

Lemma spec_notes_leading_label (ws rest : str) :
  Forall (fun c => isspace c = true) ws ->
  spec_notes (ws ++ NOTES ++ rest) = strip rest.
Proof.
  intros Hws. unfold spec_notes, without_leading_label.
  rewrite lstrip_spaces by assumption.
  change (lstrip (NOTES ++ rest)) with (NOTES ++ rest).
  now rewrite starts_with_app, skipn_length_app.
Qed.

(** C3, as the code has it.  When the split on [SUMMARY:] yields exactly two
    parts and the file system accepts the writes, [save_to_file] writes three
    files: the full text, the notes file holding part one with every
    occurrence of [NOTES:] removed and the surrounding whitespace stripped,
    and the summary file holding part two with the surrounding whitespace
    stripped.  When the only [NOTES:] of part one is a leading label, the
    notes file is part one without that label and without the surrounding
    whitespace, its interior unchanged. *)
Theorem notes_and_summary_files (w : World) (content filename p0 p1 : str) :
  str_split content SUMMARY = Ok [p0; p1] ->
  writable w ->
  writes (snd (save_to_file w content filename)) =
  [(full_name filename, content);
   (notes_name filename, strip (replace p0 NOTES []));
   (summary_name filename, strip p1)] /\
  (forall ws rest,
     p0 = ws ++ NOTES ++ rest ->
     Forall (fun c => isspace c = true) ws ->
     occurrences NOTES rest = 0 ->
     strip (replace p0 NOTES []) = spec_notes p0 /\
     spec_notes p0 = strip rest).
Proof.
  intros Hs Hw. split.
  - rewrite (save_to_file_two w content filename _ _ Hs) by apply Hw.
    reflexivity.
  - intros ws rest -> Hws Hocc.
    rewrite spec_notes_leading_label by assumption.
    split; [|reflexivity].
    rewrite replace_leading_label by assumption.
    unfold strip. now rewrite lstrip_spaces.
Qed.

Lemma notes_and_summary_files_witness :
  writes (snd (save_to_file english_world
                 (lit " NOTES: a b  SUMMARY: c ") (lit "video_x")))
  = [(lit "video_x_full.txt", lit " NOTES: a b  SUMMARY: c ");
     (lit "video_x_notes.txt", lit "a b");
     (lit "video_x_summary.txt", lit "c")] /\
  spec_notes (lit " NOTES: a b  ") = lit "a b".
Proof.
  destruct (notes_and_summary_files english_world
              (lit " NOTES: a b  SUMMARY: c ") (lit "video_x")
              (lit " NOTES: a b  ") (lit " c "))
    as [Hw Hl].
  - reflexivity.
  - intros name content. reflexivity.
  - split; [exact Hw|].
    destruct (Hl (lit " ") (lit " a b  ")) as [_ H].
    + reflexivity.
    + repeat constructor.
    + reflexivity.
    + exact H.
Defined.

(** C3 as stated fails: an interior [NOTES:] of part one is removed too. *)
Lemma leading_label_only_counterexample :
  str_split (lit "NOTES: a NOTES: b SUMMARY: c") SUMMARY
  = Ok [lit "NOTES: a NOTES: b "; lit " c"] /\
  spec_notes (lit "NOTES: a NOTES: b ") = lit "a NOTES: b" /\
  writes (snd (save_to_file english_world
                 (lit "NOTES: a NOTES: b SUMMARY: c") (lit "video_x")))
  = [(lit "video_x_full.txt", lit "NOTES: a NOTES: b SUMMARY: c");
     (lit "video_x_notes.txt", lit "a  b");
     (lit "video_x_summary.txt", lit "c")] /\
  ~ In (lit "video_x_notes.txt", spec_notes (lit "NOTES: a NOTES: b "))
       (writes (snd (save_to_file english_world
                       (lit "NOTES: a NOTES: b SUMMARY: c") (lit "video_x")))).
Proof.
  split; [reflexivity|]. split; [reflexivity|]. split; [reflexivity|].
  vm_compute. intros [H | [H | [H | []]]]; discriminate H.
Qed.

(** C4, as the code has it.  When the text holds exactly one [SUMMARY:]
    marker and the file system accepts the writes, [save_to_file] writes
    three files; the full file holds the text itself, and the contents of the
    notes file followed by those of the summary file are, labels and
    whitespace ignored, the text. *)
Theorem notes_and_summary_reconstruct (w : World) (content filename : str) :
  occurrences SUMMARY content = 1 ->
  writable w ->
  exists notes summary,
    writes (snd (save_to_file w content filename)) =
    [(full_name filename, content);
     (notes_name filename, notes);
     (summary_name filename, summary)] /\
    bare (notes ++ summary) = bare content.
Proof.
  intros Hocc Hw.
  destruct (str_split_one_marker content Hocc) as (p0 & p1 & Hs).
  exists (strip (replace p0 NOTES [])), (strip p1). split.
  - rewrite (save_to_file_two w content filename _ _ Hs) by apply Hw.
    reflexivity.
  - rewrite (str_split_two _ _ _ Hs). unfold bare. f_equal.
    rewrite !fold_left_app.
    now rewrite keep_summary, !keep_strip, keep_replace.
Qed.

Lemma notes_and_summary_reconstruct_witness :
  exists notes summary,
    writes (snd (save_to_file english_world sample_notes (lit "video_x"))) =
    [(lit "video_x_full.txt", sample_notes);
     (lit "video_x_notes.txt", notes);
     (lit "video_x_summary.txt", summary)] /\
    bare (notes ++ summary) = bare sample_notes.
Proof.
  apply (notes_and_summary_reconstruct english_world sample_notes (lit "video_x")).
  - reflexivity.
  - intros name content. reflexivity.
Defined.

(** C4 as stated fails: the three files put together hold the text twice. *)
Lemma three_files_counterexample :
  occurrences SUMMARY sample_notes = 1 /\
  starts_with NOTES sample_notes = true /\
  writes (snd (save_to_file english_world sample_notes (lit "video_x")))
  = [(lit "video_x_full.txt", sample_notes);
     (lit "video_x_notes.txt", lit "a");
     (lit "video_x_summary.txt", lit "b")] /\
  bare (sample_notes ++ lit "a" ++ lit "b") = lit "abab" /\
  bare sample_notes = lit "ab" /\
  bare (sample_notes ++ lit "a" ++ lit "b") <> bare sample_notes.
Proof.
  repeat (split; [reflexivity|]). discriminate.
Qed.

(** ** Traces of the components *)

Lemma bind_trace {A B} (P : Event -> Prop) (m : M A) (f : A -> M B) :
  Forall P (snd m) -> (forall a, Forall P (snd (f a))) ->
  Forall P (snd (bind m f)).
Proof.
  intros Hm Hf. destruct m as [[a|e] t]; cbn in *; [|assumption].
  specialize (Hf a). destruct (f a) as [r t']. cbn in *.
  apply Forall_app. now split.
Qed.

Lemma try_trace {A} (P : Event -> Prop) (m : M A) (h : exn -> M A) :
  Forall P (snd m) -> (forall e, Forall P (snd (h e))) ->
  Forall P (snd (try_except m h)).
Proof.
  intros Hm Hh. destruct m as [[a|e] t]; cbn in *; [assumption|].
  specialize (Hh e). destruct (h e) as [r t']. cbn in *.
  apply Forall_app. now split.
Qed.

Lemma scan_trace (generated : bool) (ts : list Track) :
  Forall acquisition_event (snd (scan generated ts)).
Proof.
  induction ts as [|t ts IH]; cbn [scan]; [constructor|].
  destruct (Bool.eqb (is_generated t) generated); [|exact IH].
  apply bind_trace; [repeat constructor | intros; constructor].
Qed.

Lemma get_transcript_trace (w : World) (video_id : str) :
  Forall acquisition_event (snd (get_transcript w video_id)).
Proof.
  unfold get_transcript.
  apply try_trace; [|intros; repeat constructor].
  apply bind_trace.
  - unfold acquire. apply try_trace.
    + apply bind_trace; [repeat constructor | intros; constructor].
    + intros _. apply bind_trace; [repeat constructor|].
      intros ts. unfold select_track. apply bind_trace; [apply scan_trace|].
      intros [x|]; [constructor | apply scan_trace].
  - intros [[d l]|]; cbn [format_and_translate]; [|constructor].
    apply bind_trace; [constructor|]. intros text_transcript.
    destruct (negb (str_eqb l en)); [|constructor].
    apply bind_trace; [repeat constructor|]. intros _.
    apply bind_trace; [repeat constructor | intros; constructor].
Qed.

Lemma acquisition_no_write (tr : list Event) :
  Forall acquisition_event tr -> write_attempts tr = [] /\ notes_calls tr = [].
Proof.
  induction 1 as [|ev tr Hev _ [IH1 IH2]]; [now split|].
  destruct ev; cbn in *; now try contradiction.
Qed.

(** Acquisition writes no file and does not ask for notes. *)
Lemma get_transcript_quiet (w : World) (video_id : str) :
  write_attempts (snd (get_transcript w video_id)) = [] /\
  notes_calls (snd (get_transcript w video_id)) = [].
Proof. apply acquisition_no_write, get_transcript_trace. Qed.

(** ** [generate_notes_with_gemini] *)

Lemma generate_notes_ok (w : World) (transcript text : str) :
  generate_content w (notes_prompt transcript) = Ok text ->
  generate_notes_with_gemini w transcript =
  (Ok (Some text), [GenerateNotes (notes_prompt transcript)]).
Proof. intros H. unfold generate_notes_with_gemini. run. now rewrite H. Qed.

Lemma generate_notes_raise (w : World) (transcript : str) (e : exn) :
  generate_content w (notes_prompt transcript) = Raise e ->
  generate_notes_with_gemini w transcript =
  (Ok None, [GenerateNotes (notes_prompt transcript); PrintLine (msg_notes_error e)]).
Proof. intros H. unfold generate_notes_with_gemini. run. now rewrite H. Qed.

(** It has no exceptional outcome, makes one request and writes no file. *)
Lemma generate_notes_trace (w : World) (transcript : str) :
  (exists v, fst (generate_notes_with_gemini w transcript) = Ok v) /\
  notes_calls (snd (generate_notes_with_gemini w transcript))
  = [notes_prompt transcript] /\
  write_attempts (snd (generate_notes_with_gemini w transcript)) = [].
Proof.
  destruct (generate_content w (notes_prompt transcript)) as [text|e] eqn:H.
  - rewrite (generate_notes_ok _ _ _ H). cbn. eauto.
  - rewrite (generate_notes_raise _ _ _ H). cbn. eauto.
Qed.

(** ** [process_youtube_video] *)

Lemma extract_truthy (url video_id : str) :
  extract_video_id url = Some video_id ->
  truthy (extract_video_id url) = Some video_id.
Proof.
  intros H. rewrite H. apply extract_video_id_is_id in H as [Hlen _].
  destruct video_id; [discriminate | reflexivity].
Qed.

Lemma process_invalid (w : World) (url : str) :
  extract_video_id url = None ->
  process_youtube_video w url = (Ok tt, [PrintLine msg_invalid_url]).
Proof. intros H. unfold process_youtube_video. now rewrite H. Qed.

Lemma process_no_transcript (w : World) (url video_id : str)
      (transcript language : option str) (tr : list Event) :
  extract_video_id url = Some video_id ->
  get_transcript w video_id = (Ok (transcript, language), tr) ->
  truthy transcript = None ->
  process_youtube_video w url =
  (Ok tt, [PrintLine (msg_processing video_id)] ++ tr ++ [PrintLine msg_no_transcript]).
Proof.
  intros Hid Hget Ht. unfold process_youtube_video.
  rewrite (extract_truthy _ _ Hid). run. rewrite Hget, Ht. reflexivity.
Qed.

Lemma process_write_refused (w : World) (url video_id transcript : str)
      (t : option str) (language : option str) (tr : list Event) (e : exn) :
  extract_video_id url = Some video_id ->
  get_transcript w video_id = (Ok (t, language), tr) ->
  truthy t = Some transcript ->
  open_write w (transcript_name (lit "video_" ++ video_id)) transcript = Raise e ->
  process_youtube_video w url =
  (Raise e,
   [PrintLine (msg_processing video_id)] ++ tr
   ++ [WriteFailed (transcript_name (lit "video_" ++ video_id)) transcript]).
Proof.
  intros Hid Hget Ht Hw. unfold process_youtube_video.
  rewrite (extract_truthy _ _ Hid). run. rewrite Hget, Ht.
  rewrite (write_file_raise _ _ _ _ Hw). reflexivity.
Qed.

Lemma process_no_notes (w : World) (url video_id transcript : str)
      (t language notes_content : option str) (tr trg : list Event) :
  extract_video_id url = Some video_id ->
  get_transcript w video_id = (Ok (t, language), tr) ->
  truthy t = Some transcript ->
  open_write w (transcript_name (lit "video_" ++ video_id)) transcript = Ok tt ->
  generate_notes_with_gemini w transcript = (Ok notes_content, trg) ->
  truthy notes_content = None ->
  process_youtube_video w url =
  (Ok tt,
   [PrintLine (msg_processing video_id)] ++ tr
   ++ [WriteFile (transcript_name (lit "video_" ++ video_id)) transcript;
       PrintLine (msg_generating language)]
   ++ trg ++ [PrintLine msg_no_notes]).
Proof.
  intros Hid Hget Ht Hw Hgen Hn. unfold process_youtube_video.
  rewrite (extract_truthy _ _ Hid). run. rewrite Hget, Ht.
  rewrite (write_file_ok _ _ _ Hw), Hgen, Hn. reflexivity.
Qed.

Lemma process_complete (w : World) (url video_id transcript notes : str)
      (t language notes_content : option str) (tr trg : list Event) :
  extract_video_id url = Some video_id ->
  get_transcript w video_id = (Ok (t, language), tr) ->
  truthy t = Some transcript ->
  open_write w (transcript_name (lit "video_" ++ video_id)) transcript = Ok tt ->
  generate_notes_with_gemini w transcript = (Ok notes_content, trg) ->
  truthy notes_content = Some notes ->
  process_youtube_video w url =
  (Ok tt,
   [PrintLine (msg_processing video_id)] ++ tr
   ++ [WriteFile (transcript_name (lit "video_" ++ video_id)) transcript;
       PrintLine (msg_generating language)]
   ++ trg
   ++ snd (save_to_file w notes (lit "video_" ++ video_id))
   ++ [PrintLine msg_complete]).
Proof.
  intros Hid Hget Ht Hw Hgen Hn. unfold process_youtube_video.
  rewrite (extract_truthy _ _ Hid). run. rewrite Hget, Ht.
  rewrite (write_file_ok _ _ _ Hw), Hgen, Hn.
  pose proof (save_to_file_returns w notes (lit "video_" ++ video_id)) as Hs.
  destruct (save_to_file w notes (lit "video_" ++ video_id)) as [r trs].
  cbn in Hs. subst r. reflexivity.
Qed.

Lemma get_transcript_quiet_at (w : World) (video_id : str)
      (r : result (option str * option str)) (tr : list Event) :
  get_transcript w video_id = (r, tr) ->
  write_attempts tr = [] /\ notes_calls tr = [].
Proof.
  intros H. pose proof (get_transcript_quiet w video_id) as Q.
  now rewrite H in Q.
Qed.

Lemma generate_notes_trace_at (w : World) (transcript : str)
      (r : result (option str)) (trg : list Event) :
  generate_notes_with_gemini w transcript = (r, trg) ->
  write_attempts trg = [] /\ notes_calls trg = [notes_prompt transcript].
Proof.
  intros H. destruct (generate_notes_trace w transcript) as (_ & Hn & Hw).
  now rewrite H in Hn, Hw.
Qed.

(** C6.  When the English fetch fails and the enumeration, made without
    error, selects no track, [get_transcript] returns [(None, None)] as a
    value (nothing is raised to the caller) after the two calls to the
    caption service and one printed line; the orchestrator then prints that
    no transcript could be retrieved and returns.  Neither run contains a
    translation request, a notes request or a file write. *)
Theorem no_track_no_generation (w : World) (url video_id : str) (e : exn)
        (ts : list Track) :
  extract_video_id url = Some video_id ->
  api_get_transcript w video_id = Raise e ->
  api_list_transcripts w video_id = Ok ts ->
  fst (select_track ts) = Ok None ->
  get_transcript w video_id =
  (Ok (None, None),
   [GetTranscript video_id; ListTranscripts video_id;
    PrintLine (msg_transcript_error (UnboundLocalError (lit "transcript_list")))]) /\
  translations (snd (get_transcript w video_id)) = [] /\
  notes_calls (snd (get_transcript w video_id)) = [] /\
  process_youtube_video w url =
  (Ok tt,
   [PrintLine (msg_processing video_id);
    GetTranscript video_id; ListTranscripts video_id;
    PrintLine (msg_transcript_error (UnboundLocalError (lit "transcript_list")));
    PrintLine msg_no_transcript]) /\
  translations (snd (process_youtube_video w url)) = [] /\
  notes_calls (snd (process_youtube_video w url)) = [] /\
  write_attempts (snd (process_youtube_video w url)) = [].
Proof.
  intros Hid He Hl Hsel.
  apply select_track_none in Hsel. subst ts.
  assert (Hget : get_transcript w video_id =
                 (Ok (None, None),
                  [GetTranscript video_id; ListTranscripts video_id;
                   PrintLine (msg_transcript_error
                            (UnboundLocalError (lit "transcript_list")))])).
  { unfold get_transcript. rewrite (acquire_fallback _ _ _ _ He Hl).
    reflexivity. }
  rewrite (process_no_transcript w url video_id None None _ Hid Hget eq_refl), Hget.
  repeat split.
Qed.

Lemma no_track_no_generation_witness :
  fst (get_transcript no_tracks_world sample_id) = Ok (None, None) /\
  fst (process_youtube_video no_tracks_world sample_url) = Ok tt /\
  translations (snd (process_youtube_video no_tracks_world sample_url)) = [] /\
  notes_calls (snd (process_youtube_video no_tracks_world sample_url)) = [] /\
  write_attempts (snd (process_youtube_video no_tracks_world sample_url)) = [].
Proof.
  destruct (no_track_no_generation no_tracks_world sample_url sample_id
              (External (lit "no English transcript")) [])
    as (Hget & _ & _ & Hrun & Ht & Hn & Hw).
  - reflexivity.
  - reflexivity.
  - reflexivity.
  - reflexivity.
  - rewrite Hget, Hrun. repeat split.
Defined.

(** C5, where the code departs from it.  With English captions available and
    a working directory that refuses writes, the orchestrator's write of the
    raw transcript raises, nothing catches the exception, and the run ends
    with it, no failure line having been printed.  [save_to_file] in the same
    world catches the refusal, prints its error line and returns. *)
Theorem transcript_write_failure_propagates :
  process_youtube_video read_only_world sample_url =
  (Raise (External (lit "Permission denied")),
   [PrintLine (msg_processing sample_id);
    GetTranscript sample_id;
    WriteFailed (lit "video_abc12345678_transcript.txt")
                (lit "hello" ++ nl ++ lit "world")]) /\
  save_to_file read_only_world sample_notes (lit "video_abc12345678") =
  (Ok tt,
   [WriteFailed (lit "video_abc12345678_full.txt") sample_notes;
    PrintLine (msg_save_error (External (lit "Permission denied")))]).
Proof. split; reflexivity. Qed.

Lemma halt_no_transcript (w : World) (url video_id : str)
      (t language : option str) (tr : list Event) :
  extract_video_id url = Some video_id ->
  get_transcript w video_id = (Ok (t, language), tr) ->
  truthy t = None ->
  process_youtube_video w url =
  (Ok tt, [PrintLine (msg_processing video_id)] ++ tr ++ [PrintLine msg_no_transcript]) /\
  write_attempts (snd (process_youtube_video w url)) = [] /\
  notes_calls (snd (process_youtube_video w url)) = [].
Proof.
  intros Hid Hget Ht.
  destruct (get_transcript_quiet_at _ _ _ _ Hget) as [Qw Qn].
  rewrite (process_no_transcript w url video_id t language tr Hid Hget Ht).
  cbn [snd]. rewrite !write_attempts_app, !notes_calls_app, Qw, Qn.
  repeat split.
Qed.

Lemma halt_no_notes (w : World) (url video_id transcript : str)
      (t language notes_content : option str) (tr trg : list Event) :
  extract_video_id url = Some video_id ->
  get_transcript w video_id = (Ok (t, language), tr) ->
  truthy t = Some transcript ->
  open_write w (transcript_name (lit "video_" ++ video_id)) transcript = Ok tt ->
  generate_notes_with_gemini w transcript = (Ok notes_content, trg) ->
  truthy notes_content = None ->
  process_youtube_video w url =
  (Ok tt,
   [PrintLine (msg_processing video_id)] ++ tr
   ++ [WriteFile (transcript_name (lit "video_" ++ video_id)) transcript;
       PrintLine (msg_generating language)]
   ++ trg ++ [PrintLine msg_no_notes]) /\
  write_attempts (snd (process_youtube_video w url))
  = [transcript_name (lit "video_" ++ video_id)].
Proof.
  intros Hid Hget Ht Hw Hgen Hn.
  destruct (get_transcript_quiet_at _ _ _ _ Hget) as [Qw Qn].
  destruct (generate_notes_trace_at _ _ _ _ Hgen) as [Gw Gn].
  rewrite (process_no_notes w url video_id transcript t language
             notes_content tr trg Hid Hget Ht Hw Hgen Hn).
  cbn [snd]. rewrite !write_attempts_app, Qw, Gw. repeat split.
Qed.

(** C9.  The orchestrator runs its stages in the order: parse the URL,
    acquire the transcript, write the raw transcript, ask for the notes,
    write the outputs, report completion; and it stops, with its own line,
    at the first of the three halting points that applies.
    - Unparseable URL: the run is the single line saying so.
    - Transcript unavailable ([None] or empty): the run is the processing
      line, the events of the acquisition and the line saying so; no file is
      written and no notes are requested (a translation request, if any,
      belongs to the acquisition).
    - Notes not generated ([None] or empty): the run goes on with the write
      of the raw transcript, the line announcing the generation, the events
      of the generation and the line saying so; the transcript file is the
      only file written.
    - Otherwise the events of [save_to_file] and the completion line follow.
    The write of the raw transcript is taken to succeed. *)
Theorem orchestrator_sequence (w : World) (url : str) :
  (extract_video_id url = None ->
   process_youtube_video w url = (Ok tt, [PrintLine msg_invalid_url])) /\
  (forall video_id t language tr,
     extract_video_id url = Some video_id ->
     get_transcript w video_id = (Ok (t, language), tr) ->
     (truthy t = None ->
      process_youtube_video w url =
      (Ok tt,
       [PrintLine (msg_processing video_id)] ++ tr ++ [PrintLine msg_no_transcript]) /\
      write_attempts (snd (process_youtube_video w url)) = [] /\
      notes_calls (snd (process_youtube_video w url)) = []) /\
     (forall transcript notes_content trg,
        truthy t = Some transcript ->
        open_write w (transcript_name (lit "video_" ++ video_id)) transcript
        = Ok tt ->
        generate_notes_with_gemini w transcript = (Ok notes_content, trg) ->
        (truthy notes_content = None ->
         process_youtube_video w url =
         (Ok tt,
          [PrintLine (msg_processing video_id)] ++ tr
          ++ [WriteFile (transcript_name (lit "video_" ++ video_id)) transcript;
              PrintLine (msg_generating language)]
          ++ trg ++ [PrintLine msg_no_notes]) /\
         write_attempts (snd (process_youtube_video w url))
         = [transcript_name (lit "video_" ++ video_id)]) /\
        (forall notes,
           truthy notes_content = Some notes ->
           process_youtube_video w url =
           (Ok tt,
            [PrintLine (msg_processing video_id)] ++ tr
            ++ [WriteFile (transcript_name (lit "video_" ++ video_id)) transcript;
                PrintLine (msg_generating language)]
            ++ trg
            ++ snd (save_to_file w notes (lit "video_" ++ video_id))
            ++ [PrintLine msg_complete])))).
Proof.
  split; [apply process_invalid|].
  intros video_id t language tr Hid Hget.
  split.
  - intros Ht. now apply (halt_no_transcript w url video_id t language tr).
  - intros transcript notes_content trg Ht Hw Hgen.
    split.
    + intros Hn. now apply (halt_no_notes w url video_id transcript t language
                              notes_content tr trg).
    + intros notes Hn.
      apply (process_complete w url video_id transcript notes t language
               notes_content tr trg Hid Hget Ht Hw Hgen Hn).
Qed.

Lemma orchestrator_sequence_witness :
  process_youtube_video english_world (lit "https://example.com/video")
  = (Ok tt, [PrintLine msg_invalid_url]) /\
  write_attempts (snd (process_youtube_video no_tracks_world sample_url)) = [] /\
  write_attempts (snd (process_youtube_video broken_model_world sample_url))
  = [lit "video_abc12345678_transcript.txt"] /\
  List.map fst (writes (snd (process_youtube_video english_world sample_url)))
  = [lit "video_abc12345678_transcript.txt"; lit "video_abc12345678_full.txt";
     lit "video_abc12345678_notes.txt"; lit "video_abc12345678_summary.txt"].
Proof.
  split; [|split; [|split]].
  - apply (orchestrator_sequence english_world (lit "https://example.com/video")).
    reflexivity.
  - destruct (orchestrator_sequence no_tracks_world sample_url) as [_ H].
    destruct (H sample_id None None
                (snd (get_transcript no_tracks_world sample_id)))
      as [Hhalt _]; [reflexivity | reflexivity |].
    apply Hhalt. reflexivity.
  - destruct (orchestrator_sequence broken_model_world sample_url) as [_ H].
    destruct (H sample_id (Some (lit "hello" ++ nl ++ lit "world")) (Some en)
                [GetTranscript sample_id])
      as [_ Hgo]; [reflexivity | reflexivity |].
    destruct (Hgo (lit "hello" ++ nl ++ lit "world") None
                (snd (generate_notes_with_gemini broken_model_world
                        (lit "hello" ++ nl ++ lit "world"))))
      as [Hhalt _]; [reflexivity | reflexivity | reflexivity |].
    apply Hhalt. reflexivity.
  - destruct (orchestrator_sequence english_world sample_url) as [_ H].
    destruct (H sample_id (Some (lit "hello" ++ nl ++ lit "world")) (Some en)
                [GetTranscript sample_id])
      as [_ Hgo]; [reflexivity | reflexivity |].
    destruct (Hgo (lit "hello" ++ nl ++ lit "world") (Some sample_notes)
                (snd (generate_notes_with_gemini english_world
                        (lit "hello" ++ nl ++ lit "world"))))
      as [_ Hdone]; [reflexivity | reflexivity | reflexivity |].
    rewrite (Hdone sample_notes eq_refl). reflexivity.
Defined.

(** C10.  An empty text counts as no text.  When [get_transcript] returns an
    empty transcript, the orchestrator does what it does for [None]: it
    prints that no transcript could be retrieved and returns, having written
    no file and requested no notes.  When the notes generator returns an
    empty text, the orchestrator does what it does for [None]: it prints that
    no notes could be generated and returns, the transcript file being the
    only file written. *)
Theorem empty_text_is_failure (w : World) (url video_id : str) :
  extract_video_id url = Some video_id ->
  (forall t language tr,
     get_transcript w video_id = (Ok (t, language), tr) ->
     t = None \/ t = Some [] ->
     process_youtube_video w url =
     (Ok tt,
      [PrintLine (msg_processing video_id)] ++ tr ++ [PrintLine msg_no_transcript]) /\
     write_attempts (snd (process_youtube_video w url)) = [] /\
     notes_calls (snd (process_youtube_video w url)) = []) /\
  (forall transcript language tr notes_content trg,
     get_transcript w video_id = (Ok (Some transcript, language), tr) ->
     transcript <> [] ->
     open_write w (transcript_name (lit "video_" ++ video_id)) transcript
     = Ok tt ->
     generate_notes_with_gemini w transcript = (Ok notes_content, trg) ->
     notes_content = None \/ notes_content = Some [] ->
     process_youtube_video w url =
     (Ok tt,
      [PrintLine (msg_processing video_id)] ++ tr
      ++ [WriteFile (transcript_name (lit "video_" ++ video_id)) transcript;
          PrintLine (msg_generating language)]
      ++ trg ++ [PrintLine msg_no_notes]) /\
     write_attempts (snd (process_youtube_video w url))
     = [transcript_name (lit "video_" ++ video_id)]).
Proof.
  intros Hid.
  split.
  - intros t language tr Hget Ht.
    apply (halt_no_transcript w url video_id t language tr);
      [assumption | assumption |].
    destruct Ht as [-> | ->]; reflexivity.
  - intros transcript language tr notes_content trg Hget Hne Hw Hgen Hn.
    assert (Ht : truthy (Some transcript) = Some transcript)
      by (destruct transcript; [contradiction | reflexivity]).
    apply (halt_no_notes w url video_id transcript (Some transcript) language
             notes_content tr trg); try assumption.
    destruct Hn as [-> | ->]; reflexivity.
Qed.

Lemma empty_text_is_failure_witness :
  fst (get_transcript silent_world sample_id) = Ok (Some [], Some en) /\
  printed (snd (process_youtube_video silent_world sample_url))
  = [msg_processing sample_id; msg_no_transcript] /\
  write_attempts (snd (process_youtube_video silent_world sample_url)) = [] /\
  fst (generate_notes_with_gemini mute_model_world
         (lit "hello" ++ nl ++ lit "world")) = Ok (Some []) /\
  write_attempts (snd (process_youtube_video mute_model_world sample_url))
  = [lit "video_abc12345678_transcript.txt"].
Proof.
  split; [reflexivity|].
  destruct (empty_text_is_failure silent_world sample_url sample_id eq_refl)
    as [Hsilent _].
  destruct (Hsilent (Some []) (Some en) [GetTranscript sample_id] eq_refl
              (or_intror eq_refl))
    as (Hrun & Hw & _).
  destruct (empty_text_is_failure mute_model_world sample_url sample_id eq_refl)
    as [_ Hmute].
  destruct (Hmute (lit "hello" ++ nl ++ lit "world") (Some en)
              [GetTranscript sample_id] (Some [])
              (snd (generate_notes_with_gemini mute_model_world
                      (lit "hello" ++ nl ++ lit "world"))))
    as [_ Hw'];
    [reflexivity | discriminate | reflexivity | reflexivity
     | right; reflexivity |].
  split; [rewrite Hrun; reflexivity|].
  split; [exact Hw|]. split; [reflexivity | exact Hw'].
Defined.

(** * Further properties *)

(** ** Where an identifier comes from *)

Lemma capture_id_cut (s : str) (g : caps) :
  capture_id s = Some g ->
  exists id post, g = [(1, id)] /\ is_id id /\ s = id ++ post.
Proof.
  intros H. destruct (capture_id_is_id _ _ H) as (id & Hg & Hid).
  unfold capture_id in H. destruct (id_run s); [|discriminate].
  injection H as <-. injection Hg as <-.
  exists (firstn 11 s), (skipn 11 s).
  split; [reflexivity|]. split; [assumption|].
  symmetry. apply firstn_skipn.
Qed.

Lemma id_after_cut (marker s : str) (g : caps) :
  id_after marker s = Some g ->
  exists id post, g = [(1, id)] /\ is_id id /\ s = marker ++ id ++ post.
Proof.
  unfold id_after. destruct (starts_with marker s) eqn:E; [|discriminate].
  intros H. apply capture_id_cut in H as (id & post & Hg & Hid & Hs).
  exists id, post. split; [assumption|]. split; [assumption|].
  rewrite (starts_with_inv _ _ E) at 1. now rewrite Hs.
Qed.

Lemma lazy_star_cut {R} (a : atom) (s : str) (k : str -> option R) (x : R) :
  lazy_star a s k = Some x ->
  exists mid rest,
    s = mid ++ rest /\ Forall (fun c => atom_ok a c = true) mid /\
    k rest = Some x.
Proof.
  revert x; induction s as [|c s IH]; intros x; simpl.
  - destruct (k []) eqn:E; [|discriminate].
    intros [= <-]. now exists [], [].
  - destruct (k (c :: s)) eqn:E.
    + intros [= <-]. now exists [], (c :: s).
    + destruct (atom_ok a c) eqn:Hc; [|discriminate].
      intros H. destruct (IH _ H) as (mid & rest & -> & Hmid & Hk).
      exists (c :: mid), rest. repeat split; auto.
Qed.

Lemma search_cut (r : regex) (s : str) (g : caps) :
  search r s = Some g ->
  exists pre rest, s = pre ++ rest /\ match_here r rest = Some g.
Proof.
  intros H. apply search_sound in H as [i Hi].
  exists (firstn i s), (skipn i s). split; [|assumption].
  symmetry. apply firstn_skipn.
Qed.

(** The text a match of either pattern sits in. *)
Lemma extract_origin (url id : str) :
  extract_video_id url = Some id ->
  (exists pre marker post,
     In marker [watch_v; youtu_be; embed] /\
     url = pre ++ marker ++ id ++ post) \/
  (exists pre mid post,
     Forall (fun c => c <> newline) mid /\
     url = pre ++ watch_q ++ mid ++ amp_v ++ id ++ post).
Proof.
  destruct (search pattern_a url) as [g|] eqn:Ea.
  - rewrite (first_match_a _ _ Ea). intros Hg. left.
    apply search_cut in Ea as (pre & rest & -> & Hm).
    rewrite match_here_a in Hm.
    assert (Hcut : exists marker id' post,
               In marker [watch_v; youtu_be; embed] /\
               g = [(1, id')] /\ rest = marker ++ id' ++ post).
    { destruct (id_after watch_v rest) eqn:E1.
      { injection Hm as ->.
        apply id_after_cut in E1 as (i & p & ? & _ & ?).
        exists watch_v, i, p. simpl; auto. }
      destruct (id_after youtu_be rest) eqn:E2.
      { injection Hm as ->.
        apply id_after_cut in E2 as (i & p & ? & _ & ?).
        exists youtu_be, i, p. simpl; auto. }
      apply id_after_cut in Hm as (i & p & ? & _ & ?).
      exists embed, i, p. simpl; auto. }
    destruct Hcut as (marker & id' & post & Hin & -> & ->).
    simpl in Hg. injection Hg as ->.
    now exists pre, marker, post.
  - rewrite (first_match_b _ Ea).
    destruct (search pattern_b url) as [g|] eqn:Eb; [|discriminate].
    intros Hg. right.
    apply search_cut in Eb as (pre & rest & -> & Hm).
    rewrite match_here_b in Hm.
    destruct (starts_with watch_q rest) eqn:E; [|discriminate].
    apply lazy_star_cut in Hm as (mid & tail & Hrest & Hmid & Hk).
    apply id_after_cut in Hk as (id' & post & -> & _ & ->).
    simpl in Hg. injection Hg as ->.
    exists pre, mid, post. split.
    + eapply Forall_impl; [|exact Hmid].
      intros c Hc. simpl in Hc. apply negb_true_iff in Hc.
      now apply N.eqb_neq.
    + rewrite (starts_with_inv _ _ E), Hrest. reflexivity.
Qed.

(** X1.  An identifier returned by [extract_video_id] is copied from the
    URL: it is the eleven identifier characters that follow one of the three
    markers of the first pattern, or that follow [&v=] later than
    [youtube.com/watch?] with no newline in between. *)
Theorem extract_video_id_sound (url id : str) :
  extract_video_id url = Some id ->
  is_id id /\
  ((exists pre marker post,
      In marker [watch_v; youtu_be; embed] /\
      url = pre ++ marker ++ id ++ post) \/
   (exists pre mid post,
      Forall (fun c => c <> newline) mid /\
      url = pre ++ watch_q ++ mid ++ amp_v ++ id ++ post)).
Proof.
  intros H. split; [now apply (extract_video_id_is_id url) | now apply extract_origin].
Qed.

Lemma extract_video_id_sound_witness :
  is_id sample_id /\
  ((exists pre marker post,
      In marker [watch_v; youtu_be; embed] /\
      sample_url = pre ++ marker ++ sample_id ++ post) \/
   (exists pre mid post,
      Forall (fun c => c <> newline) mid /\
      sample_url = pre ++ watch_q ++ mid ++ amp_v ++ sample_id ++ post)).
Proof. apply (extract_video_id_sound sample_url sample_id). reflexivity. Defined.

Lemma marker_length (marker : str) :
  In marker [watch_v; youtu_be; embed] -> 9 <= length marker.
Proof. intros [<- | [<- | [<- | []]]]; simpl; lia. Qed.

(** X2.  No string of fewer than twenty characters is parsed: the shortest
    match is [youtu.be/] and eleven identifier characters. *)
Theorem extract_video_id_short (url : str) :
  length url < 20 -> extract_video_id url = None.
Proof.
  intros Hlen. destruct (extract_video_id url) as [id|] eqn:E; [|reflexivity].
  exfalso.
  destruct (extract_video_id_is_id _ _ E) as [Hid _].
  destruct (extract_origin _ _ E)
    as [(pre & marker & post & Hin & ->) | (pre & mid & post & _ & ->)].
  - apply marker_length in Hin. rewrite !length_app in Hlen. lia.
  - rewrite !length_app in Hlen. change (length watch_q) with 18 in Hlen. lia.
Qed.

Lemma extract_video_id_short_witness :
  extract_video_id (lit "youtu.be/abc1234567") = None.
Proof. apply extract_video_id_short. simpl. lia. Defined.

Lemma occurrences_at (p pre s : str) :
  starts_with p s = true -> 0 < occurrences p (pre ++ s).
Proof.
  intros H. induction pre as [|c pre IH].
  - destruct s; cbn [app occurrences]; rewrite H; lia.
  - cbn [app occurrences]. lia.
Qed.

(** X3.  A string in which [youtu] does not occur is not parsed. *)
Theorem extract_video_id_needs_youtu (url : str) :
  occurrences youtu url = 0 -> extract_video_id url = None.
Proof.
  intros Hocc. destruct (extract_video_id url) as [id|] eqn:E; [|reflexivity].
  exfalso.
  destruct (extract_origin _ _ E)
    as [(pre & marker & post & Hin & ->) | (pre & mid & post & _ & ->)].
  - assert (H : starts_with youtu (marker ++ id ++ post) = true)
      by (destruct Hin as [<- | [<- | [<- | []]]]; reflexivity).
    apply (occurrences_at _ pre) in H. lia.
  - assert (H : starts_with youtu (watch_q ++ mid ++ amp_v ++ id ++ post) = true)
      by reflexivity.
    apply (occurrences_at _ pre) in H. lia.
Qed.

Lemma extract_video_id_needs_youtu_witness :
  extract_video_id (lit "https://vimeo.com/watch?v=abc12345678") = None.
Proof. apply extract_video_id_needs_youtu. reflexivity. Defined.

(** ** The runs of [get_transcript] *)

Lemma select_track_cases (ts : list Track) :
  ts = [] \/
  exists t,
    In t ts /\
    select_track ts =
    match fetch t with
    | Ok d => (Ok (Some (d, language_code t)), [Fetch t])
    | Raise e => (Raise e, [Fetch t])
    end.
Proof.
  destruct ts as [|t0 ts]; [now left | right].
  destruct (first_manual (t0 :: ts)) as [Hall | (gens & m & rest & E & Hg & Hm)].
  - exists t0. split; [now left | now apply select_track_generated].
  - exists m. rewrite E. split; [apply in_elt | now apply select_track_manual].
Qed.

(** Every run of [get_transcript]: the English track, formatted or not; an
    enumeration that raises; an empty enumeration; and, for the track [t]
    the enumeration settles on, a fetch that raises, a text that cannot be
    formatted, an English text, a translated text, a translation that
    raises. *)
Lemma get_transcript_cases (w : World) (video_id : str) :
  (exists d text,
     api_get_transcript w video_id = Ok d /\
     format_transcript w d = Ok text /\
     get_transcript w video_id =
     (Ok (Some text, Some en), [GetTranscript video_id])) \/
  (exists d e',
     api_get_transcript w video_id = Ok d /\
     format_transcript w d = Raise e' /\
     get_transcript w video_id =
     (Ok (None, None),
      [GetTranscript video_id; PrintLine (msg_transcript_error e')])) \/
  (exists e e',
     api_get_transcript w video_id = Raise e /\
     api_list_transcripts w video_id = Raise e' /\
     get_transcript w video_id =
     (Ok (None, None),
      [GetTranscript video_id; ListTranscripts video_id;
       PrintLine (msg_transcript_error e')])) \/
  (exists e,
     api_get_transcript w video_id = Raise e /\
     api_list_transcripts w video_id = Ok [] /\
     get_transcript w video_id =
     (Ok (None, None),
      [GetTranscript video_id; ListTranscripts video_id;
       PrintLine (msg_transcript_error (UnboundLocalError (lit "transcript_list")))])) \/
  (exists e ts t,
     api_get_transcript w video_id = Raise e /\
     api_list_transcripts w video_id = Ok ts /\
     In t ts /\
     ((exists e',
         fetch t = Raise e' /\
         get_transcript w video_id =
         (Ok (None, None),
          [GetTranscript video_id; ListTranscripts video_id; Fetch t;
           PrintLine (msg_transcript_error e')])) \/
      (exists d e',
         fetch t = Ok d /\ format_transcript w d = Raise e' /\
         get_transcript w video_id =
         (Ok (None, None),
          [GetTranscript video_id; ListTranscripts video_id; Fetch t;
           PrintLine (msg_transcript_error e')])) \/
      (exists d original,
         fetch t = Ok d /\ format_transcript w d = Ok original /\
         language_code t = en /\
         get_transcript w video_id =
         (Ok (Some original, Some en),
          [GetTranscript video_id; ListTranscripts video_id; Fetch t])) \/
      (exists d original text,
         fetch t = Ok d /\ format_transcript w d = Ok original /\
         language_code t <> en /\
         generate_content w (translation_prompt (language_code t) original)
         = Ok text /\
         get_transcript w video_id =
         (Ok (Some text, Some (language_code t)),
          [GetTranscript video_id; ListTranscripts video_id; Fetch t;
           PrintLine (msg_translating (language_code t));
           Translate (translation_prompt (language_code t) original)])) \/
      (exists d original e',
         fetch t = Ok d /\ format_transcript w d = Ok original /\
         language_code t <> en /\
         generate_content w (translation_prompt (language_code t) original)
         = Raise e' /\
         get_transcript w video_id =
         (Ok (None, None),
          [GetTranscript video_id; ListTranscripts video_id; Fetch t;
           PrintLine (msg_translating (language_code t));
           Translate (translation_prompt (language_code t) original);
           PrintLine (msg_transcript_error e')])))).
Proof.
  destruct (api_get_transcript w video_id) as [d|e] eqn:He.
  { destruct (format_transcript w d) as [text|e'] eqn:Hfmt.
    - left. exists d, text. split; [reflexivity|]. split; [assumption|].
      now apply (get_transcript_english w video_id d).
    - right. left. exists d, e'. split; [reflexivity|]. split; [assumption|].
      now apply (get_transcript_english_unformatted w video_id d). }
  right. right.
  destruct (api_list_transcripts w video_id) as [ts|e'] eqn:Hl.
  2:{ left. exists e, e'. repeat split.
      unfold get_transcript, acquire. run. now rewrite He, Hl. }
  right.
  destruct (select_track_cases ts) as [-> | (t & Hin & Hsel)].
  { left. exists e. repeat split.
    unfold get_transcript. now rewrite (acquire_fallback _ _ _ _ He Hl). }
  right. exists e, ts, t. repeat split; try assumption.
  unfold get_transcript. rewrite (acquire_fallback _ _ _ _ He Hl), Hsel.
  destruct (fetch t) as [d|e'] eqn:Hf; cbn [fst snd].
  2:{ left. now exists e'. }
  right.
  unfold format_and_translate, bind, try_except, call, print, emit, ret, lift.
  destruct (format_transcript w d) as [original|e'] eqn:Hfmt.
  2:{ left. exists d, e'. repeat split; assumption. }
  right.
  destruct (str_eqb (language_code t) en) eqn:Hen; cbn [negb].
  { left. exists d, original. apply str_eqb_eq in Hen. rewrite Hen.
    repeat split; assumption. }
  right.
  assert (Hne : language_code t <> en).
  { intros E. rewrite E, str_eqb_refl in Hen. discriminate. }
  destruct (generate_content w (translation_prompt (language_code t) original))
    as [text|e'] eqn:Hg; cbn [fst snd app].
  - left. exists d, original, text. repeat split; assumption.
  - right. exists d, original, e'. repeat split; assumption.
Qed.

(** X4.  Whenever [get_transcript] returns, its result is all or nothing:
    either [(None, None)], and then the last thing it did was to print its
    error line; or a text with a language code, and then it printed nothing
    but, possibly, the line announcing the translation. *)
Theorem get_transcript_all_or_nothing (w : World) (video_id : str)
        (transcript language : option str) (tr : list Event) :
  get_transcript w video_id = (Ok (transcript, language), tr) ->
  (transcript = None /\ language = None /\
   exists e tr', tr = tr' ++ [PrintLine (msg_transcript_error e)]) \/
  (exists text lang,
     transcript = Some text /\ language = Some lang /\
     (printed tr = [] \/ printed tr = [msg_translating lang])).
Proof.
  destruct (get_transcript_cases w video_id)
    as [(d & text & _ & _ & ->)
       | [(d & e' & _ & _ & ->)
         | [(e & e' & _ & _ & ->)
           | [(e & _ & _ & ->)
             | (e & ts & t & _ & _ & _ &
                [(e' & _ & ->)
                | [(d & e' & _ & _ & ->)
                  | [(d & original & _ & _ & _ & ->)
                    | [(d & original & text & _ & _ & _ & _ & ->)
                      | (d & original & e' & _ & _ & _ & _ & ->)]]]])]]]];
    intros [= <- <- <-].
  - right. eexists _, _. repeat split. now left.
  - left. repeat split. exists e'. now exists [GetTranscript video_id].
  - left. repeat split. exists e'.
    now exists [GetTranscript video_id; ListTranscripts video_id].
  - left. repeat split. eexists.
    now exists [GetTranscript video_id; ListTranscripts video_id].
  - left. repeat split. exists e'.
    now exists [GetTranscript video_id; ListTranscripts video_id; Fetch t].
  - left. repeat split. exists e'.
    now exists [GetTranscript video_id; ListTranscripts video_id; Fetch t].
  - right. eexists _, _. repeat split. now left.
  - right. eexists _, _. repeat split. now right.
  - left. repeat split. exists e'.
    now exists [GetTranscript video_id; ListTranscripts video_id; Fetch t;
                PrintLine (msg_translating (language_code t));
                Translate (translation_prompt (language_code t) original)].
Qed.

Lemma get_transcript_all_or_nothing_witness :
  exists e tr',
    snd (get_transcript disabled_world sample_id)
    = tr' ++ [PrintLine (msg_transcript_error e)].
Proof.
  destruct (get_transcript_all_or_nothing disabled_world sample_id None None
              (snd (get_transcript disabled_world sample_id)) eq_refl)
    as [(_ & _ & H) | (text & lang & Habs & _)].
  - exact H.
  - discriminate Habs.
Defined.

(** X5.  One run of [get_transcript] makes at most three calls to the
    caption service, fetches at most one enumerated track and sends at most
    one translation request: nothing is retried. *)
Theorem get_transcript_bounded (w : World) (video_id : str) :
  caption_calls (snd (get_transcript w video_id)) <= 3 /\
  length (fetched (snd (get_transcript w video_id))) <= 1 /\
  length (translations (snd (get_transcript w video_id))) <= 1.
Proof.
  destruct (get_transcript_cases w video_id)
    as [(d & text & _ & _ & ->)
       | [(d & e' & _ & _ & ->)
         | [(e & e' & _ & _ & ->)
           | [(e & _ & _ & ->)
             | (e & ts & t & _ & _ & _ &
                [(e' & _ & ->)
                | [(d & e' & _ & _ & ->)
                  | [(d & original & _ & _ & _ & ->)
                    | [(d & original & text & _ & _ & _ & _ & ->)
                      | (d & original & e' & _ & _ & _ & _ & ->)]]]])]]]];
    cbn; lia.
Qed.

(** X6.  When the fetch of the first manual track raises, [get_transcript]
    gives up: it prints the error and returns [(None, None)], and no other
    track, manual or generated, is tried. *)
Theorem no_second_track (w : World) (video_id : str) (e e' : exn)
        (gens : list Track) (m : Track) (rest : list Track) :
  api_get_transcript w video_id = Raise e ->
  api_list_transcripts w video_id = Ok (gens ++ m :: rest) ->
  Forall (fun t => is_generated t = true) gens ->
  is_generated m = false ->
  fetch m = Raise e' ->
  get_transcript w video_id =
  (Ok (None, None),
   [GetTranscript video_id; ListTranscripts video_id; Fetch m;
    PrintLine (msg_transcript_error e')]).
Proof.
  intros He Hl Hg Hm Hf. unfold get_transcript.
  rewrite (acquire_fallback _ _ _ _ He Hl),
    (select_track_manual _ _ rest Hg Hm), Hf.
  reflexivity.
Qed.

Lemma no_second_track_witness :
  get_transcript broken_fetch_world sample_id =
  (Ok (None, None),
   [GetTranscript sample_id; ListTranscripts sample_id; Fetch broken_manual_de;
    PrintLine (msg_transcript_error (External (lit "blocked")))]).
Proof.
  apply (no_second_track broken_fetch_world sample_id
           (External (lit "no English transcript")) (External (lit "blocked"))
           [generated_es] broken_manual_de [manual_fr]).
  - reflexivity.
  - reflexivity.
  - repeat constructor.
  - reflexivity.
  - reflexivity.
Defined.

(** X7.  When the English fetch fails and every enumerated track is a
    generated one, the first of them is the one and only track fetched, and
    its formatted text and language code are what [get_transcript] goes on
    with. *)
Theorem generated_track_fallback (w : World) (video_id : str) (e : exn)
        (t : Track) (ts : list Track) :
  api_get_transcript w video_id = Raise e ->
  api_list_transcripts w video_id = Ok (t :: ts) ->
  Forall (fun t' => is_generated t' = true) (t :: ts) ->
  fetched (snd (get_transcript w video_id)) = [t] /\
  forall d original, fetch t = Ok d -> format_transcript w d = Ok original ->
    (language_code t = en ->
     fst (get_transcript w video_id) = Ok (Some original, Some en)) /\
    (language_code t <> en ->
     forall text,
       generate_content w (translation_prompt (language_code t) original)
       = Ok text ->
       fst (get_transcript w video_id) = Ok (Some text, Some (language_code t))).
Proof.
  intros He Hl Hall.
  apply (get_transcript_selected _ _ _ _ t He Hl).
  now apply select_track_generated.
Qed.

Lemma generated_track_fallback_witness :
  fetched (snd (get_transcript generated_only_world sample_id)) = [generated_es] /\
  fst (get_transcript generated_only_world sample_id)
  = Ok (Some sample_notes, Some (lit "es")).
Proof.
  destruct (generated_track_fallback generated_only_world sample_id
              (External (lit "no English transcript"))
              generated_es [generated_pt])
    as [Hf Hr].
  - reflexivity.
  - reflexivity.
  - repeat constructor.
  - split; [exact Hf|].
    destruct (Hr [lit "hola"] (lit "hola") eq_refl eq_refl) as [_ Htr].
    apply Htr; [discriminate | reflexivity].
Defined.

(** X8.  Where a returned text comes from.  With the language code [en] the
    text is the formatted text of the English track, or of an enumerated
    track whose code is [en], and no translation was requested.  With any
    other code, the code is that of an enumerated track, one translation
    request was sent, carrying that code and the formatted text of the track,
    and the returned text is the model's answer to it. *)
Theorem returned_text_origin (w : World) (video_id text lang : str) :
  fst (get_transcript w video_id) = Ok (Some text, Some lang) ->
  (lang = en /\
   translations (snd (get_transcript w video_id)) = [] /\
   exists d,
     format_transcript w d = Ok text /\
     (api_get_transcript w video_id = Ok d \/
      exists ts t,
        api_list_transcripts w video_id = Ok ts /\ In t ts /\
        fetch t = Ok d /\ language_code t = en)) \/
  (lang <> en /\
   exists ts t d original,
     api_list_transcripts w video_id = Ok ts /\ In t ts /\
     fetch t = Ok d /\ language_code t = lang /\
     format_transcript w d = Ok original /\
     translations (snd (get_transcript w video_id))
     = [translation_prompt lang original] /\
     generate_content w (translation_prompt lang original) = Ok text).
Proof.
  destruct (get_transcript_cases w video_id)
    as [(d & x & Hd & Hfmt & ->)
       | [(d & e' & _ & _ & ->)
         | [(e & e' & _ & _ & ->)
           | [(e & _ & _ & ->)
             | (e & ts & t & _ & Hl & Hin &
                [(e' & _ & ->)
                | [(d & e' & _ & _ & ->)
                  | [(d & original & Hf & Hfmt & Hen & ->)
                    | [(d & original & x & Hf & Hfmt & Hne & Hg & ->)
                      | (d & original & e' & _ & _ & _ & _ & ->)]]]])]]]];
    cbn [fst snd]; intros H; try discriminate H; injection H as <- <-.
  - left. repeat split. exists d. split; [assumption | now left].
  - left. repeat split. exists d. split; [assumption|].
    right. now exists ts, t.
  - right. split; [assumption|]. exists ts, t, d, original.
    repeat split; assumption.
Qed.

Lemma returned_text_origin_witness :
  (lit "fr" = en /\
   translations (snd (get_transcript fallback_world sample_id)) = [] /\
   exists d,
     format_transcript fallback_world d = Ok sample_notes /\
     (api_get_transcript fallback_world sample_id = Ok d \/
      exists ts t,
        api_list_transcripts fallback_world sample_id = Ok ts /\ In t ts /\
        fetch t = Ok d /\ language_code t = en)) \/
  (lit "fr" <> en /\
   exists ts t d original,
     api_list_transcripts fallback_world sample_id = Ok ts /\ In t ts /\
     fetch t = Ok d /\ language_code t = lit "fr" /\
     format_transcript fallback_world d = Ok original /\
     translations (snd (get_transcript fallback_world sample_id))
     = [translation_prompt (lit "fr") original] /\
     generate_content fallback_world (translation_prompt (lit "fr") original)
     = Ok sample_notes).
Proof.
  apply (returned_text_origin fallback_world sample_id sample_notes (lit "fr")).
  reflexivity.
Defined.

(** ** The runs of [save_to_file] *)

Lemma save_to_file_cases (w : World) (content filename : str) :
  (exists e,
     open_write w (full_name filename) content = Raise e /\
     save_to_file w content filename =
     (Ok tt,
      [WriteFailed (full_name filename) content; PrintLine (msg_save_error e)])) \/
  (open_write w (full_name filename) content = Ok tt /\
   occurrences SUMMARY content <> 1 /\
   save_to_file w content filename =
   (Ok tt,
    [WriteFile (full_name filename) content;
     PrintLine (check_mark ++ lit " Full content saved to: " ++ full_name filename)])) \/
  (exists p0 p1,
     str_split content SUMMARY = Ok [p0; p1] /\
     open_write w (full_name filename) content = Ok tt /\
     ((exists e,
         open_write w (notes_name filename) (strip (replace p0 NOTES []))
         = Raise e /\
         save_to_file w content filename =
         (Ok tt,
          [WriteFile (full_name filename) content;
           WriteFailed (notes_name filename) (strip (replace p0 NOTES []));
           PrintLine (msg_save_error e)])) \/
      (exists e,
         open_write w (notes_name filename) (strip (replace p0 NOTES []))
         = Ok tt /\
         open_write w (summary_name filename) (strip p1) = Raise e /\
         save_to_file w content filename =
         (Ok tt,
          [WriteFile (full_name filename) content;
           WriteFile (notes_name filename) (strip (replace p0 NOTES []));
           WriteFailed (summary_name filename) (strip p1);
           PrintLine (msg_save_error e)])) \/
      (open_write w (notes_name filename) (strip (replace p0 NOTES [])) = Ok tt /\
       open_write w (summary_name filename) (strip p1) = Ok tt /\
       save_to_file w content filename =
       (Ok tt,
        [WriteFile (full_name filename) content;
         WriteFile (notes_name filename) (strip (replace p0 NOTES []));
         WriteFile (summary_name filename) (strip p1);
         PrintLine (check_mark ++ lit " Files saved successfully:");
         PrintLine (lit "   - " ++ full_name filename
                    ++ lit " (Complete notes and summary)");
         PrintLine (lit "   - " ++ notes_name filename ++ lit " (Just the notes)");
         PrintLine (lit "   - " ++ summary_name filename
                    ++ lit " (Just the summary)");
         PrintLine (check_mark ++ lit " Raw transcript saved to: "
                    ++ transcript_name filename)])))).
Proof.
  destruct (open_write w (full_name filename) content) as [[]|e] eqn:Hf.
  2:{ left. exists e. split; [reflexivity | now apply save_to_file_refused]. }
  right.
  destruct (Nat.eq_dec (occurrences SUMMARY content) 1) as [Hocc | Hocc].
  2:{ left. split; [reflexivity|]. split; [assumption|].
      eapply save_to_file_whole; [apply str_split_summary | | assumption].
      rewrite split_aux_parts by apply le_n. lia. }
  right.
  destruct (str_split_one_marker content Hocc) as (p0 & p1 & Hs).
  exists p0, p1. split; [assumption|]. split; [reflexivity|].
  destruct (open_write w (notes_name filename) (strip (replace p0 NOTES [])))
    as [[]|e] eqn:Hn.
  2:{ left. exists e. split; [reflexivity|].
      unfold save_to_file.
      rewrite Hs, (write_file_ok _ _ _ Hf). run.
      now rewrite (write_file_raise _ _ _ _ Hn). }
  right.
  destruct (open_write w (summary_name filename) (strip p1)) as [[]|e] eqn:Hsum.
  2:{ left. exists e. split; [reflexivity|]. split; [reflexivity|].
      unfold save_to_file.
      rewrite Hs, (write_file_ok _ _ _ Hf). run.
      now rewrite (write_file_ok _ _ _ Hn), (write_file_raise _ _ _ _ Hsum). }
  right. split; [reflexivity|]. split; [reflexivity|].
  now apply save_to_file_two.
Qed.

Lemma name_suffix_differs (stem a b : str) : a <> b -> stem ++ a <> stem ++ b.
Proof. intros H E. now apply app_inv_head in E. Qed.

(** X9.  The files [save_to_file] tries to write are the full file, then the
    notes file, then the summary file, up to some point of that list; the
    transcript file, which its last line announces as saved, is not among
    them. *)
Theorem save_to_file_contained (w : World) (content filename : str) :
  (exists k,
     write_attempts (snd (save_to_file w content filename)) =
     firstn (S k) [full_name filename; notes_name filename; summary_name filename]) /\
  ~ In (transcript_name filename)
       (write_attempts (snd (save_to_file w content filename))).
Proof.
  assert (Hnames : ~ In (transcript_name filename)
                     [full_name filename; notes_name filename;
                      summary_name filename]).
  { unfold transcript_name, full_name, notes_name, summary_name.
    intros [H | [H | [H | []]]];
      apply app_inv_head in H; discriminate H. }
  destruct (save_to_file_cases w content filename)
    as [(e & _ & ->)
       | [(_ & _ & ->)
         | (p0 & p1 & _ & _ &
            [(e & _ & ->) | [(e & _ & _ & ->) | (_ & _ & ->)]])]];
    cbn [fst snd write_attempts]; split.
  all: try (intros H; apply Hnames; cbn in H |- *; tauto).
  - now exists 0.
  - now exists 0.
  - now exists 1.
  - now exists 2.
  - now exists 2.
Qed.

(** X10.  [save_to_file] stops at the first write that fails and cleans
    nothing up.  Either no write failed; or exactly one did, it was the last
    one tried, the files written before it stay written, and the error line
    is the only line printed. *)
Theorem save_to_file_first_failure (w : World) (content filename : str) :
  (failed_writes (snd (save_to_file w content filename)) = [] /\
   List.map fst (writes (snd (save_to_file w content filename)))
   = write_attempts (snd (save_to_file w content filename))) \/
  (exists name e,
     failed_writes (snd (save_to_file w content filename)) = [name] /\
     write_attempts (snd (save_to_file w content filename))
     = List.map fst (writes (snd (save_to_file w content filename))) ++ [name] /\
     printed (snd (save_to_file w content filename)) = [msg_save_error e]).
Proof.
  destruct (save_to_file_cases w content filename)
    as [(e & _ & ->)
       | [(_ & _ & ->)
         | (p0 & p1 & _ & _ &
            [(e & _ & ->) | [(e & _ & _ & ->) | (_ & _ & ->)]])]];
    cbn [snd failed_writes writes write_attempts printed List.map fst app].
  - right. now exists (full_name filename), e.
  - now left.
  - right. now exists (notes_name filename), e.
  - right. now exists (summary_name filename), e.
  - now left.
Qed.

Lemma lstrip_head (s r : str) (c : char) :
  lstrip s = c :: r -> isspace c = false.
Proof.
  induction s as [|d s IH]; simpl; [discriminate|].
  destruct (isspace d) eqn:Hd; [exact IH|].
  now intros [= <- _].
Qed.

(** What [strip] leaves has no whitespace at either end. *)
Lemma strip_ends (s r : str) (c : char) :
  strip s = c :: r ->
  isspace c = false /\ isspace (last (strip s) c) = false.
Proof.
  intros H. split.
  - destruct (rstrip_cut (lstrip s)) as (ws & _ & E).
    fold (strip s) in E. rewrite H in E.
    now apply (lstrip_head s (r ++ ws)).
  - unfold strip, rstrip in *.
    destruct (lstrip (rev (lstrip s))) as [|d l] eqn:E; [discriminate H|].
    cbn [rev]. rewrite last_last. now apply lstrip_head in E.
Qed.

Lemma occurrences_app_r (sep a b : str) :
  occurrences sep (a ++ b) = 0 -> occurrences sep b = 0.
Proof.
  induction a as [|c a IH]; [auto|].
  cbn [app occurrences]. intros H. apply IH. lia.
Qed.

Lemma occurrences_app_l (sep a b : str) :
  occurrences sep (a ++ b) = 0 -> occurrences sep a = 0.
Proof.
  induction a as [|c a IH]; intros H.
  - cbn [occurrences]. destruct (starts_with sep []) eqn:E; [|reflexivity].
    apply (starts_with_longer _ _ b) in E.
    apply (occurrences_at _ []) in E. cbn [app] in *. lia.
  - cbn [app occurrences] in *.
    destruct (starts_with sep (c :: a)) eqn:E.
    + apply (starts_with_longer _ _ b) in E. cbn [app] in E.
      rewrite E in H. lia.
    + cbn [Nat.add]. apply IH.
      destruct (starts_with sep (c :: a ++ b)); lia.
Qed.

Lemma occurrences_strip (sep s : str) :
  occurrences sep s = 0 -> occurrences sep (strip s) = 0.
Proof.
  intros H.
  destruct (lstrip_cut s) as (ws & _ & E).
  destruct (rstrip_cut (lstrip s)) as (ws' & _ & E').
  fold (strip s) in E'. rewrite E, E' in H.
  now apply occurrences_app_r, occurrences_app_l in H.
Qed.

Lemma split_two_parts_free (content p0 p1 : str) :
  str_split content SUMMARY = Ok [p0; p1] ->
  occurrences SUMMARY p0 = 0 /\ occurrences SUMMARY p1 = 0.
Proof.
  rewrite str_split_summary. intros [= H].
  pose proof (split_aux_parts_free (length content) (ch "S") (tl SUMMARY)
                content (le_n _)) as F.
  change (ch "S" :: tl SUMMARY) with SUMMARY in F. rewrite H in F.
  inversion F as [|? ? F0 F']; subst. inversion F' as [|? ? F1 _]; subst.
  split; now apply find_none_occurrences.
Qed.

(** The files of a run of [save_to_file], whatever the file system does. *)
Lemma save_to_file_writes (w : World) (content filename name x : str) :
  In (name, x) (writes (snd (save_to_file w content filename))) ->
  (name = full_name filename /\ x = content) \/
  exists p0 p1,
    str_split content SUMMARY = Ok [p0; p1] /\
    ((name = notes_name filename /\ x = strip (replace p0 NOTES [])) \/
     (name = summary_name filename /\ x = strip p1)).
Proof.
  destruct (save_to_file_cases w content filename)
    as [(e & _ & ->)
       | [(_ & _ & ->)
         | (p0 & p1 & Hs & _ &
            [(e & _ & ->) | [(e & _ & _ & ->) | (_ & _ & ->)]])]];
    cbn [snd writes In]; intros H.
  - contradiction.
  - destruct H as [[= <- <-] | []]. now left.
  - destruct H as [[= <- <-] | []]. now left.
  - destruct H as [[= <- <-] | [[= <- <-] | []]]; [now left | right].
    exists p0, p1. split; [assumption | now left].
  - destruct H as [[= <- <-] | [[= <- <-] | [[= <- <-] | []]]];
      [now left | right | right]; exists p0, p1; (split; [assumption|]);
      [now left | now right].
Qed.

(** X11.  Apart from the full file, no file written by [save_to_file] begins
    or ends with a whitespace character. *)
Theorem outputs_are_stripped (w : World) (content filename name x r : str)
        (c : char) :
  In (name, x) (writes (snd (save_to_file w content filename))) ->
  name <> full_name filename ->
  x = c :: r ->
  isspace c = false /\ isspace (last x c) = false.
Proof.
  intros Hin Hname Hx.
  destruct (save_to_file_writes _ _ _ _ _ Hin)
    as [[Hn _] | (p0 & p1 & _ & [[_ ->] | [_ ->]])];
    [contradiction | |]; now apply (strip_ends _ r).
Qed.

Lemma outputs_are_stripped_witness :
  isspace (ch "a") = false /\ isspace (last (lit "a b") (ch "a")) = false.
Proof.
  apply (outputs_are_stripped english_world (lit " NOTES: a b  SUMMARY: c ")
           (lit "video_x") (lit "video_x_notes.txt") (lit "a b") (lit " b")
           (ch "a")).
  - right. left. reflexivity.
  - discriminate.
  - reflexivity.
Defined.

(** X12.  A summary file written by [save_to_file] never holds the marker
    [SUMMARY:]. *)
Theorem summary_file_has_no_marker (w : World) (content filename x : str) :
  In (summary_name filename, x) (writes (snd (save_to_file w content filename))) ->
  occurrences SUMMARY x = 0.
Proof.
  intros Hin.
  destruct (save_to_file_writes _ _ _ _ _ Hin)
    as [[Hn _] | (p0 & p1 & Hs & [[Hn _] | [_ ->]])].
  - unfold summary_name, full_name in Hn.
    apply app_inv_head in Hn. discriminate Hn.
  - unfold summary_name, notes_name in Hn.
    apply app_inv_head in Hn. discriminate Hn.
  - apply occurrences_strip. now apply (split_two_parts_free content p0 p1).
Qed.

Lemma summary_file_has_no_marker_witness :
  occurrences SUMMARY (lit "c") = 0.
Proof.
  apply (summary_file_has_no_marker english_world
           (lit " NOTES: a b  SUMMARY: c ") (lit "video_x") (lit "c")).
  right. right. left. reflexivity.
Defined.

(** ** The runs of [process_youtube_video] *)

Lemma process_cases (w : World) (url : str) :
  (extract_video_id url = None /\
   process_youtube_video w url = (Ok tt, [PrintLine msg_invalid_url])) \/
  (exists video_id t language tr,
     extract_video_id url = Some video_id /\
     get_transcript w video_id = (Ok (t, language), tr) /\
     ((truthy t = None /\
       process_youtube_video w url =
       (Ok tt,
        [PrintLine (msg_processing video_id)] ++ tr
        ++ [PrintLine msg_no_transcript])) \/
      (exists transcript,
         truthy t = Some transcript /\
         ((exists e,
             open_write w (transcript_name (lit "video_" ++ video_id)) transcript
             = Raise e /\
             process_youtube_video w url =
             (Raise e,
              [PrintLine (msg_processing video_id)] ++ tr
              ++ [WriteFailed (transcript_name (lit "video_" ++ video_id))
                    transcript])) \/
          (open_write w (transcript_name (lit "video_" ++ video_id)) transcript
           = Ok tt /\
           exists notes_content trg,
             generate_notes_with_gemini w transcript = (Ok notes_content, trg) /\
             ((truthy notes_content = None /\
               process_youtube_video w url =
               (Ok tt,
                [PrintLine (msg_processing video_id)] ++ tr
                ++ [WriteFile (transcript_name (lit "video_" ++ video_id))
                      transcript;
                    PrintLine (msg_generating language)]
                ++ trg ++ [PrintLine msg_no_notes])) \/
              (exists notes,
                 truthy notes_content = Some notes /\
                 process_youtube_video w url =
                 (Ok tt,
                  [PrintLine (msg_processing video_id)] ++ tr
                  ++ [WriteFile (transcript_name (lit "video_" ++ video_id))
                        transcript;
                      PrintLine (msg_generating language)]
                  ++ trg
                  ++ snd (save_to_file w notes (lit "video_" ++ video_id))
                  ++ [PrintLine msg_complete])))))))).
Proof.
  destruct (extract_video_id url) as [video_id|] eqn:Hid.
  2:{ left. split; [reflexivity | now apply process_invalid]. }
  right.
  destruct (get_transcript_returns w video_id) as [[t language] Hv].
  destruct (get_transcript w video_id) as [r tr] eqn:Hget.
  cbn [fst] in Hv. subst r.
  exists video_id, t, language, tr. split; [first [reflexivity | assumption]|]. split; [first [reflexivity | assumption]|].
  destruct (truthy t) as [transcript|] eqn:Ht.
  2:{ left. split; [first [reflexivity | assumption]|].
      now apply (process_no_transcript w url video_id t language tr). }
  right. exists transcript. split; [first [reflexivity | assumption]|].
  destruct (open_write w (transcript_name (lit "video_" ++ video_id)) transcript)
    as [[]|e] eqn:Hw.
  2:{ left. exists e. split; [first [reflexivity | assumption]|].
      now apply (process_write_refused w url video_id transcript t language tr e). }
  right. split; [first [reflexivity | assumption]|].
  destruct (generate_notes_trace w transcript) as ([notes_content Hn] & _ & _).
  destruct (generate_notes_with_gemini w transcript) as [rn trg] eqn:Hgen.
  cbn [fst] in Hn. subst rn.
  exists notes_content, trg. split; [first [reflexivity | assumption]|].
  destruct (truthy notes_content) as [notes|] eqn:Hnotes.
  - right. exists notes. split; [first [reflexivity | assumption]|].
    now apply (process_complete w url video_id transcript notes t language
                 notes_content tr trg).
  - left. split; [first [reflexivity | assumption]|].
    now apply (process_no_notes w url video_id transcript t language
                 notes_content tr trg).
Qed.

(** X14.  Whenever the URL is parsed, a non-empty transcript is acquired and
    the file system refuses the transcript file, the orchestrator ends with
    the file system's exception: the refused write is the last thing it
    does, no line reports the failure, no notes are requested and no other
    file is tried. *)
Theorem transcript_refusal_propagates (w : World) (url video_id : str)
        (t language : option str) (tr : list Event) (transcript : str)
        (e : exn) :
  extract_video_id url = Some video_id ->
  get_transcript w video_id = (Ok (t, language), tr) ->
  truthy t = Some transcript ->
  open_write w (transcript_name (lit "video_" ++ video_id)) transcript
  = Raise e ->
  process_youtube_video w url =
  (Raise e,
   [PrintLine (msg_processing video_id)] ++ tr
   ++ [WriteFailed (transcript_name (lit "video_" ++ video_id)) transcript]) /\
  notes_calls (snd (process_youtube_video w url)) = [] /\
  write_attempts (snd (process_youtube_video w url))
  = [transcript_name (lit "video_" ++ video_id)] /\
  printed (snd (process_youtube_video w url))
  = msg_processing video_id :: printed tr.
Proof.
  intros Hid Hget Ht Hw.
  destruct (get_transcript_quiet_at _ _ _ _ Hget) as [Qw Qn].
  rewrite (process_write_refused w url video_id transcript t language
             tr e Hid Hget Ht Hw).
  cbn [snd].
  rewrite !notes_calls_app, !write_attempts_app, !printed_app, Qw, Qn.
  cbn. rewrite app_nil_r. repeat split.
Qed.

Lemma transcript_refusal_propagates_witness :
  fst (process_youtube_video read_only_world sample_url)
  = Raise (External (lit "Permission denied")) /\
  printed (snd (process_youtube_video read_only_world sample_url))
  = [msg_processing sample_id].
Proof.
  destruct (transcript_refusal_propagates read_only_world sample_url sample_id
              (Some (lit "hello" ++ nl ++ lit "world")) (Some en)
              [GetTranscript sample_id] (lit "hello" ++ nl ++ lit "world")
              (External (lit "Permission denied")))
    as (Hrun & _ & _ & Hp);
    [reflexivity | reflexivity | reflexivity | reflexivity |].
  split; [rewrite Hrun; reflexivity | exact Hp].
Defined.

Lemma save_attempts_prefix (w : World) (content filename : str) :
  exists k,
    write_attempts (snd (save_to_file w content filename)) =
    firstn (S k) [full_name filename; notes_name filename; summary_name filename].
Proof.
  destruct (save_to_file_cases w content filename)
    as [(e & _ & ->)
       | [(_ & _ & ->)
         | (p0 & p1 & _ & _ &
            [(e & _ & ->) | [(e & _ & _ & ->) | (_ & _ & ->)]])]];
    cbn [snd write_attempts].
  - now exists 0.
  - now exists 0.
  - now exists 1.
  - now exists 2.
  - now exists 2.
Qed.

(** [save_to_file] calls neither the caption service nor the model. *)
Lemma save_to_file_local (w : World) (content filename : str) :
  caption_calls (snd (save_to_file w content filename)) = 0 /\
  translations (snd (save_to_file w content filename)) = [] /\
  notes_calls (snd (save_to_file w content filename)) = [].
Proof.
  destruct (save_to_file_cases w content filename)
    as [(e & _ & ->)
       | [(_ & _ & ->)
         | (p0 & p1 & _ & _ &
            [(e & _ & ->) | [(e & _ & _ & ->) | (_ & _ & ->)]])]];
    repeat split.
Qed.

Lemma generate_notes_local (w : World) (transcript : str)
      (r : result (option str)) (trg : list Event) :
  generate_notes_with_gemini w transcript = (r, trg) ->
  caption_calls trg = 0 /\ translations trg = [] /\
  notes_calls trg = [notes_prompt transcript] /\
  write_attempts trg = [] /\ writes trg = [].
Proof.
  destruct (generate_content w (notes_prompt transcript)) as [text|e] eqn:H.
  - rewrite (generate_notes_ok _ _ _ H). intros [= <- <-]. repeat split.
  - rewrite (generate_notes_raise _ _ _ H). intros [= <- <-]. repeat split.
Qed.

Lemma get_transcript_budget_at (w : World) (video_id : str)
      (r : result (option str * option str)) (tr : list Event) :
  get_transcript w video_id = (r, tr) ->
  caption_calls tr <= 3 /\ length (translations tr) <= 1 /\
  notes_calls tr = [] /\ write_attempts tr = [] /\ writes tr = [].
Proof.
  destruct (get_transcript_cases w video_id)
    as [(d & text & _ & _ & ->)
       | [(d & e' & _ & _ & ->)
         | [(e & e' & _ & _ & ->)
           | [(e & _ & _ & ->)
             | (e & ts & t & _ & _ & _ &
                [(e' & _ & ->)
                | [(d & e' & _ & _ & ->)
                  | [(d & original & _ & _ & _ & ->)
                    | [(d & original & text & _ & _ & _ & _ & ->)
                      | (d & original & e' & _ & _ & _ & _ & ->)]]]])]]]];
    intros [= <- <-]; cbn; repeat split; lia.
Qed.

(** X15.  The files the orchestrator tries to write are, in this order, the
    transcript file, the full file, the notes file and the summary file of
    the parsed identifier, up to some point of that list; it touches no
    other file. *)
Theorem orchestrator_files_in_order (w : World) (url video_id : str) :
  extract_video_id url = Some video_id ->
  exists k,
    write_attempts (snd (process_youtube_video w url)) =
    firstn k
      [transcript_name (lit "video_" ++ video_id);
       full_name (lit "video_" ++ video_id);
       notes_name (lit "video_" ++ video_id);
       summary_name (lit "video_" ++ video_id)].
Proof.
  intros Hid.
  destruct (process_cases w url)
    as [(Hnone & _)
       | (v & t & language & tr & Hid' & Hget &
          [(_ & ->)
          | (transcript & Ht &
             [(e' & Hw & ->)
             | (_ & n & trg & Hgen & [(_ & ->) | (notes & _ & ->)])])])];
    [congruence | | | |];
    rewrite Hid in Hid'; injection Hid' as <-;
    destruct (get_transcript_budget_at _ _ _ _ Hget) as (_ & _ & _ & Qw & _);
    cbn [snd]; rewrite !write_attempts_app, Qw.
  - now exists 0.
  - now exists 1.
  - destruct (generate_notes_local _ _ _ _ Hgen) as (_ & _ & _ & Gw & _).
    rewrite Gw. now exists 1.
  - destruct (generate_notes_local _ _ _ _ Hgen) as (_ & _ & _ & Gw & _).
    destruct (save_attempts_prefix w notes (lit "video_" ++ video_id)) as [k Hk].
    rewrite Gw, Hk. cbn [write_attempts app]. rewrite app_nil_r.
    now exists (S (S k)).
Qed.

Lemma orchestrator_files_in_order_witness :
  exists k,
    write_attempts (snd (process_youtube_video english_world sample_url)) =
    firstn k
      [transcript_name (lit "video_" ++ sample_id);
       full_name (lit "video_" ++ sample_id);
       notes_name (lit "video_" ++ sample_id);
       summary_name (lit "video_" ++ sample_id)].
Proof.
  apply (orchestrator_files_in_order english_world sample_url sample_id).
  reflexivity.
Defined.

(** X16.  One run of the orchestrator makes at most three calls to the
    caption service and at most two requests to the model, one translation
    and one for the notes. *)
Theorem orchestrator_call_budget (w : World) (url : str) :
  caption_calls (snd (process_youtube_video w url)) <= 3 /\
  length (translations (snd (process_youtube_video w url))) <= 1 /\
  length (notes_calls (snd (process_youtube_video w url))) <= 1.
Proof.
  destruct (process_cases w url)
    as [(_ & ->)
       | (v & t & language & tr & _ & Hget &
          [(_ & ->)
          | (transcript & Ht &
             [(e' & Hw & ->)
             | (_ & n & trg & Hgen & [(_ & ->) | (notes & _ & ->)])])])];
    [cbn; lia | | | |];
    destruct (get_transcript_budget_at _ _ _ _ Hget) as (Qc & Qt & Qn & _ & _);
    cbn [snd];
    rewrite !caption_calls_app, !translations_app, !notes_calls_app, !length_app, Qn.
  - cbn. lia.
  - cbn. lia.
  - destruct (generate_notes_local _ _ _ _ Hgen) as (Gc & Gt & Gn & _ & _).
    rewrite Gc, Gt, Gn. cbn. lia.
  - destruct (generate_notes_local _ _ _ _ Hgen) as (Gc & Gt & Gn & _ & _).
    destruct (save_to_file_local w notes (lit "video_" ++ v)) as (Sc & St & Sn).
    rewrite Gc, Gt, Gn, Sc, St, Sn. cbn. lia.
Qed.

(** X17.  A failure of [save_to_file] does not stop the orchestrator: when
    the notes were generated and the full file cannot be written, the run
    still returns normally and still ends with the line that reports
    completion, right after the error line of [save_to_file]; the transcript
    file is the only file written. *)
Theorem complete_despite_save_failure (w : World) (url video_id : str)
        (t language : option str) (tr : list Event)
        (transcript notes : str) (e : exn) :
  extract_video_id url = Some video_id ->
  get_transcript w video_id = (Ok (t, language), tr) ->
  truthy t = Some transcript ->
  open_write w (transcript_name (lit "video_" ++ video_id)) transcript = Ok tt ->
  generate_content w (notes_prompt transcript) = Ok notes ->
  notes <> [] ->
  open_write w (full_name (lit "video_" ++ video_id)) notes = Raise e ->
  process_youtube_video w url =
  (Ok tt,
   [PrintLine (msg_processing video_id)] ++ tr
   ++ [WriteFile (transcript_name (lit "video_" ++ video_id)) transcript;
       PrintLine (msg_generating language);
       GenerateNotes (notes_prompt transcript);
       WriteFailed (full_name (lit "video_" ++ video_id)) notes;
       PrintLine (msg_save_error e);
       PrintLine msg_complete]) /\
  writes (snd (process_youtube_video w url))
  = [(transcript_name (lit "video_" ++ video_id), transcript)].
Proof.
  intros Hid Hget Ht Hw Hgen Hne Hfull.
  assert (Hn : truthy (Some notes) = Some notes)
    by (destruct notes; [contradiction | reflexivity]).
  assert (Hrun : process_youtube_video w url =
                 (Ok tt,
                  [PrintLine (msg_processing video_id)] ++ tr
                  ++ [WriteFile (transcript_name (lit "video_" ++ video_id))
                        transcript;
                      PrintLine (msg_generating language);
                      GenerateNotes (notes_prompt transcript);
                      WriteFailed (full_name (lit "video_" ++ video_id)) notes;
                      PrintLine (msg_save_error e);
                      PrintLine msg_complete])).
  { rewrite (process_complete w url video_id transcript notes t language
               (Some notes) tr [GenerateNotes (notes_prompt transcript)]
               Hid Hget Ht Hw (generate_notes_ok _ _ _ Hgen) Hn).
    now rewrite (save_to_file_refused _ _ _ _ Hfull). }
  split; [exact Hrun|].
  destruct (get_transcript_budget_at _ _ _ _ Hget) as (_ & _ & _ & _ & Qw).
  rewrite Hrun. cbn [snd]. rewrite !writes_app, Qw. reflexivity.
Qed.

Lemma complete_despite_save_failure_witness :
  printed (snd (process_youtube_video
                  (refusing (lit "video_abc12345678_full.txt")) sample_url))
  = [msg_processing sample_id; msg_generating (Some en);
     msg_save_error (External (lit "Permission denied")); msg_complete] /\
  writes (snd (process_youtube_video
                 (refusing (lit "video_abc12345678_full.txt")) sample_url))
  = [(lit "video_abc12345678_transcript.txt", lit "hello" ++ nl ++ lit "world")].
Proof.
  destruct (complete_despite_save_failure
              (refusing (lit "video_abc12345678_full.txt")) sample_url sample_id
              (Some (lit "hello" ++ nl ++ lit "world")) (Some en)
              [GetTranscript sample_id]
              (lit "hello" ++ nl ++ lit "world") sample_notes
              (External (lit "Permission denied")))
    as [Hrun Hw];
    [reflexivity | reflexivity | reflexivity | reflexivity | reflexivity
     | discriminate | reflexivity |].
  split; [rewrite Hrun; reflexivity | exact Hw].
Defined.


